(** * link-shortener: the LRU cache, the fixed-window rate limiter and the
      link service, embedded from the TypeScript sources.

    - [JsMap]                   the insertion-ordered [Map<string, V>] of JavaScript
    - [LruCache]                src/utils/lru-cache.ts
    - [Http]                    the response object and src/middleware/error-handler.ts
    - [RateLimiterStore], [RateLimiter]
                                src/middleware/rate-limiter.ts
    - [Link], [InMemoryLinkRepository]
                                src/models/link.model.ts, src/repositories/link.repository.ts
    - [LinkService]             src/services/link.service.ts, src/utils/short-id.utils.ts,
                                src/controllers/link.controller.ts

    JavaScript numbers are used by the sources only as integers (sizes,
    counters, millisecond timestamps); they are modelled in [Z] and [nat].
    The clock ([Date.now()], [new Date()]) is an argument of the function
    that reads it. *)

From Stdlib Require Import ZArith Lia.
From stdpp Require Import base option list sorting strings gmap.

Local Open Scope Z_scope.

(* ===================================================================== *)
(** ** JavaScript values *)
(* ===================================================================== *)

(** The values of a TypeScript type [T], with the test [v === undefined]. *)
Class JsValue (T : Type) : Type := isUndefined : T → bool.

(** A [number] is never [undefined]. *)
#[global] Instance nat_JsValue : JsValue nat := λ _, false.

(** [A | undefined], with [None] for [undefined]. *)
#[global] Instance option_JsValue {A : Type} : JsValue (option A) :=
  λ v, match v with None => true | Some _ => false end.

(* ===================================================================== *)
(** ** JavaScript [Map<string, V>]: a map that iterates in insertion order *)
(* ===================================================================== *)

Module JsMap.
Section Defs.
Context {V : Type}.

(** Oldest insertion first.  Keys are pairwise distinct in every map built
    from [empty] by [set] and [delete] (see [wf]). *)
Definition t : Type := list (string * V).

Definition empty : t := [].

Fixpoint get (m : t) (k : string) : option V :=
  match m with
  | [] => None
  | (k', v) :: m' => if decide (k' = k) then Some v else get m' k
  end.

Definition has (m : t) (k : string) : bool :=
  match get m k with Some _ => true | None => false end.

Definition delete (m : t) (k : string) : t :=
  filter (λ kv, kv.1 ≠ k) m.

(** [Map.prototype.set]: a present key keeps its position and takes the new
    value, an absent key is appended at the end. *)
Fixpoint set (m : t) (k : string) (v : V) : t :=
  match m with
  | [] => [(k, v)]
  | (k', v') :: m' =>
      if decide (k' = k) then (k, v) :: m' else (k', v') :: set m' k v
  end.

Definition size (m : t) : nat := length m.

Definition keys (m : t) : list string := m.*1.

Definition values (m : t) : list V := m.*2.

(** [m.keys().next().value]: [None] stands for [undefined]. *)
Definition first_key (m : t) : option string := head (keys m).

Definition wf (m : t) : Prop := NoDup (keys m).
End Defs.
Arguments t : clear implicits.
End JsMap.

(* ===================================================================== *)
(** ** src/utils/lru-cache.ts *)
(* ===================================================================== *)

Module LruCache.

Definition DEFAULT_MAX_SIZE : Z := 50.

Record t (T : Type) : Type := Build {
  entries : JsMap.t T;
  maxSize : Z
}.
Arguments Build {T} _ _.
Arguments entries {T} _.
Arguments maxSize {T} _.

Section Defs.
Context {T : Type} `{!JsValue T}.

(** [new LruCache(maxSize)] *)
Definition new (maxSize : Z) : t T := Build JsMap.empty maxSize.

Definition with_entries (c : t T) (e : JsMap.t T) : t T :=
  Build e (maxSize c).

(** [get(key)]: what it returns ([None] for [undefined]) and the cache
    after the call.  [this.entries.get(key)] is [undefined] for an absent
    key and for a key that holds [undefined]; in both cases the method
    returns at once.  Otherwise it deletes the key and re-inserts it at the
    end. *)
Definition get (c : t T) (key : string) : option T * t T :=
  match JsMap.get (entries c) key with
  | None => (None, c)
  | Some value =>
      if isUndefined value then (None, c)
      else
        (Some value,
         with_entries c (JsMap.set (JsMap.delete (entries c) key) key value))
  end.

(** The first half of [set]: the map after [this.entries.set(key, value)],
    before the capacity test. *)
Definition inserted (c : t T) (key : string) (value : T) : JsMap.t T :=
  let e := if JsMap.has (entries c) key
           then JsMap.delete (entries c) key
           else entries c in
  JsMap.set e key value.

(** The second half of [set]: drop the first key of the map when the size
    is above [maxSize]. *)
Definition evict (maxSize : Z) (e : JsMap.t T) : JsMap.t T :=
  if Z.of_nat (JsMap.size e) >? maxSize then
    match JsMap.first_key e with
    | Some oldestKey => JsMap.delete e oldestKey
    | None => e
    end
  else e.

Definition set (c : t T) (key : string) (value : T) : t T :=
  with_entries c (evict (maxSize c) (inserted c key value)).

Definition has (c : t T) (key : string) : bool :=
  JsMap.has (entries c) key.

Definition size (c : t T) : nat := JsMap.size (entries c).

Definition clear (c : t T) : t T := with_entries c JsMap.empty.

Definition keys (c : t T) : list string := JsMap.keys (entries c).

(** *** Method calls as data, to speak about sequences of operations *)

Inductive Op : Type :=
| OGet (key : string)
| OSet (key : string) (value : T)
| OHas (key : string)
| OSize
| OClear.

Inductive Ret : Type :=
| RValue (v : option T)
| RBool (b : bool)
| RNum (n : nat)
| RVoid.

(** One method call: what it returns and the cache it leaves. *)
Definition call (o : Op) (c : t T) : Ret * t T :=
  match o with
  | OGet key => let '(v, c') := get c key in (RValue v, c')
  | OSet key value => (RVoid, set c key value)
  | OHas key => (RBool (has c key), c)
  | OSize => (RNum (size c), c)
  | OClear => (RVoid, clear c)
  end.

Definition step (c : t T) (o : Op) : t T := (call o c).2.

Definition run (c : t T) (tr : list Op) : t T := foldl step c tr.

(** The values returned along a run, in call order. *)
Fixpoint returns (c : t T) (tr : list Op) : list Ret :=
  match tr with
  | [] => []
  | o :: tr' => (call o c).1 :: returns (step c o) tr'
  end.

(** *** Recency, read off the sequence of calls alone *)

(** A key is touched by a [get] or a [set] naming it. *)
Definition touches (o : Op) (k : string) : bool :=
  match o with
  | OGet key | OSet key _ => bool_decide (key = k)
  | OHas _ | OSize | OClear => false
  end.

(** Over the calls latest first: the 1-based position of the latest call
    touching [k], and 0 when none does. *)
Fixpoint last_touch_rev (rtr : list Op) (k : string) : nat :=
  match rtr with
  | [] => 0%nat
  | o :: rtr' => if touches o k then length rtr else last_touch_rev rtr' k
  end.

Definition last_touch (tr : list Op) (k : string) : nat :=
  last_touch_rev (rev tr) k.

(** A call that stores nothing [undefined]. *)
Definition defined_op (o : Op) : Prop :=
  match o with
  | OSet _ value => isUndefined value = false
  | OGet _ | OHas _ | OSize | OClear => True
  end.

(** No key of the cache holds [undefined]. *)
Definition stored_defined (c : t T) : Prop :=
  ∀ k v, JsMap.get (entries c) k = Some v → isUndefined v = false.

Definition is_has (o : Op) : bool :=
  match o with OHas _ => true | _ => false end.

(** One [set] per pair, in list order. *)
Definition sets (kvs : list (string * T)) : list Op :=
(λ kv, OSet kv.1 kv.2) <$> kvs.

(** [a] was last touched before [b] was. *)
Definition older (tr : list Op) (a b : string) : Prop :=
(last_touch tr a < last_touch tr b)%nat.

(** The keys of the cache, in iteration order, go from the least recently
  touched to the most recently touched. *)
Definition recency_sorted (tr : list Op) (c : t T) : Prop :=
StronglySorted (older tr) (keys c).

End Defs.
Arguments Op : clear implicits.
Arguments Ret : clear implicits.
End LruCache.

(* ===================================================================== *)
(** ** HTTP responses and src/middleware/error-handler.ts *)
(* ===================================================================== *)

Module Http.

Inductive HeaderValue : Type :=
| HNum (n : Z)
| HStr (s : string).

(** [LinkResponse] of src/types/link.types.ts *)
Record LinkResponse : Type := {
  lr_id : string;
  lr_originalUrl : string;
  lr_shortCode : string;
  lr_shortUrl : string;
  lr_createdAt : Z
}.

Inductive Body : Type :=
| NoBody
| ErrorEnvelope (message code : string)
    (* { success: false, error: { message, code } } *)
| DataEnvelope (data : LinkResponse).
    (* { success: true, data } *)

Record Response : Type := {
  statusCode : Z;
  headers : JsMap.t HeaderValue;
  body : Body
}.

Definition fresh : Response :=
  {| statusCode := 200; headers := JsMap.empty; body := NoBody |}.

Definition setHeader (name : string) (v : HeaderValue) (res : Response)
  : Response :=
  {| statusCode := statusCode res;
     headers := JsMap.set (headers res) name v;
     body := body res |}.

Definition status (code : Z) (res : Response) : Response :=
  {| statusCode := code; headers := headers res; body := body res |}.

Definition json (b : Body) (res : Response) : Response :=
  {| statusCode := statusCode res; headers := headers res; body := b |}.

(** [res.redirect(code, url)] of Express: the status, and [Location] set to
    [encodeUrl(url)], Express's percent-encoding of the characters a URL
    may not contain.  The body text Express adds is not part of the
    model. *)
Definition redirect (encodeUrl : string → string) (code : Z) (url : string)
    (res : Response) : Response :=
  setHeader "Location" (HStr (encodeUrl url)) (status code res).

Definition header (res : Response) (name : string) : option HeaderValue :=
  JsMap.get (headers res) name.

Record AppError : Type := {
  err_message : string;
  err_statusCode : Z;
  err_code : string
}.

(** What a handler may throw: an [AppError], or any other [Error]. *)
Inductive Error : Type :=
| IsAppError (e : AppError)
| OtherError (message : string).

Definition errorHandler (err : Error) (res : Response) : Response :=
  match err with
  | IsAppError e =>
      json (ErrorEnvelope (err_message e) (err_code e))
           (status (err_statusCode e) res)
  | OtherError _ =>
      json (ErrorEnvelope "Internal server error" "INTERNAL_ERROR")
           (status 500 res)
  end.

End Http.

(* ===================================================================== *)
(** ** src/middleware/rate-limiter.ts *)
(* ===================================================================== *)

Module RateLimitEntry.
Record t : Type := Build { count : Z; resetAt : Z }.
End RateLimitEntry.

Module RateLimitResult.
Record t : Type := Build { isLimited : bool; remaining : Z; resetAt : Z }.
End RateLimitResult.

Module RateLimiterOptions.
Record t : Type := Build {
  windowMs : Z;
  maxRequests : Z;
  message : string;
  code : string
}.
End RateLimiterOptions.

Module RateLimiterStore.

Definition CLEANUP_INTERVAL_MS : Z := 60000.

(** [cleanupTimer] is [true] while the interval timer is set. *)
Record t : Type := Build {
  entries : gmap string RateLimitEntry.t;
  windowMs : Z;
  maxRequests : Z;
  cleanupTimer : bool
}.

Definition new (windowMs maxRequests : Z) : t :=
  Build ∅ windowMs maxRequests true.

Definition with_entries (s : t) (e : gmap string RateLimitEntry.t) : t :=
  Build e (windowMs s) (maxRequests s) (cleanupTimer s).

(** [check(key)], with [now] the value [Date.now()] returns in the call. *)
Definition check (s : t) (now : Z) (key : string)
  : RateLimitResult.t * t :=
  let fresh :=
    let resetAt := now + windowMs s in
    (RateLimitResult.Build false (maxRequests s - 1) resetAt,
     with_entries s (<[key := RateLimitEntry.Build 1 resetAt]> (entries s)))
  in
  match entries s !! key with
  | None => fresh
  | Some entry =>
      if bool_decide (now >= RateLimitEntry.resetAt entry) then fresh
      else
        let count := RateLimitEntry.count entry + 1 in
        let resetAt := RateLimitEntry.resetAt entry in
        let s' :=
          with_entries s
            (<[key := RateLimitEntry.Build count resetAt]> (entries s)) in
        if bool_decide (count > maxRequests s)
        then (RateLimitResult.Build true 0 resetAt, s')
        else (RateLimitResult.Build false (maxRequests s - count) resetAt, s')
  end.

(** What [check] answers inside a live window that ends at [resetAt], in
  terms of the incremented count. *)
Definition verdict (maxRequests resetAt count : Z) : RateLimitResult.t :=
if bool_decide (count > maxRequests)
then RateLimitResult.Build true 0 resetAt
else RateLimitResult.Build false (maxRequests - count) resetAt.

(** One run of the interval callback at time [now]. *)
Definition sweep (s : t) (now : Z) : t :=
  with_entries s
    (filter (λ kv, ¬ (now >= RateLimitEntry.resetAt kv.2)) (entries s)).

Definition destroy (s : t) : t :=
  Build (entries s) (windowMs s) (maxRequests s) false.

(** Consecutive [check]s of one key at the given clock readings: the
    results in call order and the store after the last call. *)
Fixpoint checks (s : t) (key : string) (times : list Z)
  : list RateLimitResult.t * t :=
  match times with
  | [] => ([], s)
  | now :: times' =>
      let '(r, s1) := check s now key in
      let '(rs, s2) := checks s1 key times' in
      (r :: rs, s2)
  end.

End RateLimiterStore.

Module RateLimiter.

(** [Math.ceil(a / b)] for integers [a] and [b > 0]. *)
Definition ceil_div (a b : Z) : Z := - ((- a) / b).

(** What one invocation of the middleware leaves behind. *)
Record Outcome : Type := Build {
  response : Http.Response;
  nextCalled : bool;
  store : RateLimiterStore.t
}.

(** [createRateLimiter(options)] builds the store once ... *)
Definition createStore (options : RateLimiterOptions.t) : RateLimiterStore.t :=
  RateLimiterStore.new (RateLimiterOptions.windowMs options)
                       (RateLimiterOptions.maxRequests options).

(** ... and returns [rateLimiterMiddleware(req, res, next)].  [ip] is
    [req.ip]; [now] is the clock reading inside [store.check], [later] the
    reading of the second [Date.now()], made only on denial. *)
Definition rateLimiterMiddleware (options : RateLimiterOptions.t)
    (st : RateLimiterStore.t) (ip : option string) (now later : Z)
    (res : Http.Response) : Outcome :=
  let key := default "unknown" ip in
  let '(result, st') := RateLimiterStore.check st now key in
  let res1 :=
    Http.setHeader "X-RateLimit-Limit"
      (Http.HNum (RateLimiterOptions.maxRequests options)) res in
  let res2 :=
    Http.setHeader "X-RateLimit-Remaining"
      (Http.HNum (RateLimitResult.remaining result)) res1 in
  let res3 :=
    Http.setHeader "X-RateLimit-Reset"
      (Http.HNum (ceil_div (RateLimitResult.resetAt result) 1000)) res2 in
  if RateLimitResult.isLimited result then
    let retryAfterSec :=
      ceil_div (RateLimitResult.resetAt result - later) 1000 in
    let res4 := Http.setHeader "Retry-After" (Http.HNum retryAfterSec) res3 in
    let res5 :=
      Http.json
        (Http.ErrorEnvelope (RateLimiterOptions.message options)
                            (RateLimiterOptions.code options))
        (Http.status 429 res4) in
    Build res5 false st'
  else
    Build res3 true st'.

Definition globalOptions : RateLimiterOptions.t :=
  RateLimiterOptions.Build 60000 100
    "Too many requests, please try again later" "RATE_LIMIT_EXCEEDED".

Definition createLinkOptions : RateLimiterOptions.t :=
  RateLimiterOptions.Build 60000 10
    "Too many link creation requests, please try again later"
    "CREATION_RATE_LIMIT_EXCEEDED".

End RateLimiter.



(* ===================================================================== *)
(** ** src/models/link.model.ts and src/repositories/link.repository.ts *)
(* ===================================================================== *)

Module Link.
Record t : Type := Build {
  id : string;
  originalUrl : string;
  shortCode : string;
  createdAt : Z
}.
End Link.

(** A [Link] object is never [undefined]. *)
#[global] Instance Link_JsValue : JsValue Link.t := λ _, false.

Module InMemoryLinkRepository.

(** [links]: a [Map] keyed by [id]. *)
Record t : Type := Build { links : JsMap.t Link.t }.

Definition new : t := Build JsMap.empty.

Definition findById (r : t) (id : string) : option Link.t :=
  JsMap.get (links r) id.

(** The first link, in iteration order, that carries the short code. *)
Definition findByShortCode (r : t) (shortCode : string) : option Link.t :=
  snd <$> list_find (λ link, Link.shortCode link = shortCode)
                    (JsMap.values (links r)).

Definition save (r : t) (link : Link.t) : Link.t * t :=
  (link, Build (JsMap.set (links r) (Link.id link) link)).

Definition findAll (r : t) : list Link.t := JsMap.values (links r).

End InMemoryLinkRepository.

(* ===================================================================== *)
(** ** src/services/link.service.ts and src/controllers/link.controller.ts *)
(* ===================================================================== *)

Module LinkService.

Definition CACHE_MAX_SIZE : Z := 50.

(** [SHORT_ID_LENGTH] of src/utils/short-id.utils.ts *)
Definition SHORT_ID_LENGTH : nat := 7.

(** A call the service makes on its repository. *)
Inductive RepoCall : Type :=
| CallSave (link : Link.t)
| CallFindByShortCode (shortCode : string).

(** The service object with the repository it holds, and two observations
    of its surroundings: how many random draws [generateShortId] has made,
    and the repository calls made so far (latest first). *)
Record State : Type := Build {
  shortCodeCache : LruCache.t Link.t;
  urlCache : LruCache.t Link.t;
  linkRepository : InMemoryLinkRepository.t;
  draws : nat;
  repoCalls : list RepoCall
}.

(** [new LinkService(new InMemoryLinkRepository())] *)
Definition new : State :=
  Build (LruCache.new CACHE_MAX_SIZE) (LruCache.new CACHE_MAX_SIZE)
        InMemoryLinkRepository.new 0 [].

(** *** Computations that read and write the state and may throw *)

Inductive Result (A : Type) : Type :=
| Ok (a : A)
| Throw (e : Http.Error).
Arguments Ok {A} _.
Arguments Throw {A} _.

Definition M (A : Type) : Type := State → Result A * State.

Definition ret {A} (a : A) : M A := λ s, (Ok a, s).

Definition throw {A} (e : Http.AppError) : M A :=
  λ s, (Throw (Http.IsAppError e), s).

Definition bind {A B} (m : M A) (k : A → M B) : M B :=
  λ s, match m s with
       | (Ok a, s') => k a s'
       | (Throw e, s') => (Throw e, s')
       end.

Declare Scope svc_scope.
Delimit Scope svc_scope with svc.
Notation "x <- m ;; k" := (bind m (λ x, k))
  (at level 100, m at next level, right associativity) : svc_scope.
Notation "m ;;; k" := (bind m (λ _, k))
  (at level 100, right associativity) : svc_scope.
Local Open Scope svc_scope.

Definition urlCache_get (key : string) : M (option Link.t) :=
  λ s, let '(v, c) := LruCache.get (urlCache s) key in
       (Ok v, Build (shortCodeCache s) c (linkRepository s) (draws s)
                    (repoCalls s)).

Definition urlCache_set (key : string) (value : Link.t) : M unit :=
  λ s, (Ok tt, Build (shortCodeCache s) (LruCache.set (urlCache s) key value)
                     (linkRepository s) (draws s) (repoCalls s)).

Definition shortCodeCache_get (key : string) : M (option Link.t) :=
  λ s, let '(v, c) := LruCache.get (shortCodeCache s) key in
       (Ok v, Build c (urlCache s) (linkRepository s) (draws s) (repoCalls s)).

Definition shortCodeCache_set (key : string) (value : Link.t) : M unit :=
  λ s, (Ok tt, Build (LruCache.set (shortCodeCache s) key value) (urlCache s)
                     (linkRepository s) (draws s) (repoCalls s)).

Definition repo_save (link : Link.t) : M Link.t :=
  λ s, let '(saved, r) := InMemoryLinkRepository.save (linkRepository s) link in
       (Ok saved, Build (shortCodeCache s) (urlCache s) r (draws s)
                        (CallSave link :: repoCalls s)).

Definition repo_findByShortCode (shortCode : string) : M (option Link.t) :=
  λ s, (Ok (InMemoryLinkRepository.findByShortCode (linkRepository s) shortCode),
        Build (shortCodeCache s) (urlCache s) (linkRepository s) (draws s)
              (CallFindByShortCode shortCode :: repoCalls s)).

Section Service.
(** The platform functions the service calls:
    - [urlParses u]: [new URL(u)] returns instead of throwing;
    - [randomBytes i n]: the [n] bytes [crypto.randomBytes(n)] yields on its
      [i]-th call;
    - [base64url bs]: [Buffer.toString('base64url')];
    - [encodeUrl u]: what Express's [res.redirect] makes of [u]. *)
Context (urlParses : string → bool).
Context (randomBytes : nat → nat → list Byte.byte).
Context (base64url : list Byte.byte → string).
Context (encodeUrl : string → string).

(** What [generateShortId()] returns when it makes the [i]-th random draw:
    [crypto.randomBytes(4).toString('base64url').slice(0, SHORT_ID_LENGTH)]. *)
Definition shortIdOfDraw (i : nat) : string :=
  String.substring 0 SHORT_ID_LENGTH (base64url (randomBytes i 4)).

(** [generateShortId()] of src/utils/short-id.utils.ts *)
Definition generateShortId : M string :=
  λ s, (Ok (shortIdOfDraw (draws s)),
        Build (shortCodeCache s) (urlCache s) (linkRepository s)
              (S (draws s)) (repoCalls s)).

Definition validateUrl (url : string) : M unit :=
  if urlParses url then ret tt
  else throw (Http.Build_AppError "Invalid URL provided" 400 "INVALID_URL").

(** [shortenUrl(originalUrl)]; [now] is what [new Date()] reads. *)
Definition shortenUrl (now : Z) (originalUrl : string) : M Link.t :=
  validateUrl originalUrl ;;;
  cached <- urlCache_get originalUrl ;;
  match cached with
  | Some link => ret link
  | None =>
      id <- generateShortId ;;
      shortCode <- generateShortId ;;
      let link := Link.Build id originalUrl shortCode now in
      saved <- repo_save link ;;
      shortCodeCache_set (Link.shortCode saved) saved ;;;
      urlCache_set (Link.originalUrl saved) saved ;;;
      ret saved
  end.

Definition resolveShortCode (shortCode : string) : M Link.t :=
  cached <- shortCodeCache_get shortCode ;;
  match cached with
  | Some link => ret link
  | None =>
      found <- repo_findByShortCode shortCode ;;
      match found with
      | None =>
          throw (Http.Build_AppError "Short link not found" 404 "LINK_NOT_FOUND")
      | Some link =>
          shortCodeCache_set shortCode link ;;;
          urlCache_set (Link.originalUrl link) link ;;;
          ret link
      end
  end.

(** *** The controller, with Express handing a thrown error to
        [errorHandler] *)

Definition respond (m : M Http.Response) (s : State) : Http.Response * State :=
  match m s with
  | (Ok res, s') => (res, s')
  | (Throw e, s') => (Http.errorHandler e Http.fresh, s')
  end.

(** [createLink]: [url] is [req.body.url], [baseUrl] is
    [`${req.protocol}://${req.get('host')}`]. *)
Definition createLink (now : Z) (baseUrl url : string) : M Http.Response :=
  link <- shortenUrl now url ;;
  let response :=
    {| Http.lr_id := Link.id link;
       Http.lr_originalUrl := Link.originalUrl link;
       Http.lr_shortCode := Link.shortCode link;
       Http.lr_shortUrl := baseUrl +:+ "/api/links/" +:+ Link.shortCode link;
       Http.lr_createdAt := Link.createdAt link |} in
  ret (Http.json (Http.DataEnvelope response) (Http.status 201 Http.fresh)).

Definition redirectLink (shortCode : string) : M Http.Response :=
  link <- resolveShortCode shortCode ;;
  ret (Http.redirect encodeUrl 301 (Link.originalUrl link) Http.fresh).

(** *** Sequences of service calls *)

Inductive Call : Type :=
| Create (now : Z) (url : string)
| Resolve (shortCode : string).

Definition perform (c : Call) : M Link.t :=
  match c with
  | Create now url => shortenUrl now url
  | Resolve shortCode => resolveShortCode shortCode
  end.

Definition exec (s : State) (c : Call) : State := (perform c s).2.

Definition reachable (s : State) : Prop :=
  ∃ calls, s = foldl exec new calls.

End Service.

(** Both caches have the capacity the constructor gave them. *)
Definition caps_ok (s : State) : Prop :=
  LruCache.maxSize (shortCodeCache s) = CACHE_MAX_SIZE ∧
  LruCache.maxSize (urlCache s) = CACHE_MAX_SIZE.

(** The link cached under a key, without touching recency. *)
Definition cached (c : LruCache.t Link.t) (key : string) : option Link.t :=
  JsMap.get (LruCache.entries c) key.

Definition notFound : Http.Error :=
  Http.IsAppError
    (Http.Build_AppError "Short link not found" 404 "LINK_NOT_FOUND").

Definition invalidUrl : Http.Error :=
  Http.IsAppError
    (Http.Build_AppError "Invalid URL provided" 400 "INVALID_URL").
End LinkService.

(* ===================================================================== *)
(** ** A stand-in platform, for worked examples only *)
(* ===================================================================== *)

Module Sample.

(** Accepts the strings that start with a scheme the service is used with;
    rejects ["not a url"]. *)
Definition urlParses (u : string) : bool :=
  String.prefix "http://" u || String.prefix "https://" u.

(** The [i]-th draw repeats one letter, a different one for consecutive
    draws. *)
Definition randomBytes (i n : nat) : list Byte.byte :=
  replicate n (if Nat.even i then Byte.x61 else Byte.x62).

(** Spells every byte twice, so that four bytes give more than
    [SHORT_ID_LENGTH] characters. *)
Definition base64url (bs : list Byte.byte) : string :=
  String.string_of_list_byte (bs ++ bs).

(** Writes a space as [%20] and keeps every other character. *)
Fixpoint encodeUrl (u : string) : string :=
  match u with
  | EmptyString => EmptyString
  | String a u' =>
      if Ascii.eqb a (Ascii.ascii_of_nat 32) then "%20" +:+ encodeUrl u'
      else String a (encodeUrl u')
  end.

Definition shortenUrl : Z → string → LinkService.M Link.t :=
  LinkService.shortenUrl urlParses randomBytes base64url.

Definition createLink : Z → string → string → LinkService.M Http.Response :=
  LinkService.createLink urlParses randomBytes base64url.

Definition exec : LinkService.State → LinkService.Call → LinkService.State :=
  LinkService.exec urlParses randomBytes base64url.

End Sample.

(* ===================================================================== *)
(** ** The values written to a cache, read off the sequence of calls *)
(* ===================================================================== *)

Module LruHistory.
Section Defs.
Context {T : Type}.

(** Over the calls latest first: the value of the latest [set] of [k] made
    after the latest [clear], if there is one. *)
Fixpoint last_set_rev (rtr : list (LruCache.Op T)) (k : string) : option T :=
  match rtr with
  | [] => None
  | LruCache.OSet key value :: rtr' =>
      if decide (key = k) then Some value else last_set_rev rtr' k
  | LruCache.OClear :: _ => None
  | _ :: rtr' => last_set_rev rtr' k
  end.

Definition last_set (tr : list (LruCache.Op T)) (k : string) : option T :=
  last_set_rev (rev tr) k.

End Defs.
End LruHistory.

(* ===================================================================== *)
(** ** src/app.ts and src/routes/link.routes.ts: the middleware chain *)
(* ===================================================================== *)

Module App.

(** The module-level objects: the stores of [globalRateLimiter] and
    [createLinkRateLimiter], and the [linkService] of the router. *)
Record State : Type := Build {
  globalStore : RateLimiterStore.t;
  createLinkStore : RateLimiterStore.t;
  service : LinkService.State
}.

Definition new : State :=
  Build (RateLimiter.createStore RateLimiter.globalOptions)
        (RateLimiter.createStore RateLimiter.createLinkOptions)
        LinkService.new.

(** The two routes of the router mounted at [/api/links]. *)
Inductive Request : Type :=
| PostLink (ip : option string) (baseUrl url : string)
| GetLink (ip : option string) (shortCode : string).

(** [req.ip] *)
Definition ipOf (req : Request) : option string :=
  match req with PostLink ip _ _ | GetLink ip _ => ip end.

(** What the clock shows at each place one request may read it: the two
    readings of the global limiter, the two of the route limiter, and the
    [new Date()] of [shortenUrl]. *)
Record Clock : Type := {
  globalNow : Z;
  globalLater : Z;
  routeNow : Z;
  routeLater : Z;
  created : Z
}.

Section Handlers.
Context (urlParses : string → bool).
Context (randomBytes : nat → nat → list Byte.byte).
Context (base64url : list Byte.byte → string).
Context (encodeUrl : string → string).

(** [LinkController.createLink], writing to the response [res] it is given. *)
Definition createLink (now : Z) (baseUrl url : string) (res : Http.Response)
  : LinkService.M Http.Response :=
  LinkService.bind (LinkService.shortenUrl urlParses randomBytes base64url now url)
    (λ link,
       let response :=
         {| Http.lr_id := Link.id link;
            Http.lr_originalUrl := Link.originalUrl link;
            Http.lr_shortCode := Link.shortCode link;
            Http.lr_shortUrl :=
              baseUrl +:+ "/api/links/" +:+ Link.shortCode link;
            Http.lr_createdAt := Link.createdAt link |} in
       LinkService.ret
         (Http.json (Http.DataEnvelope response) (Http.status 201 res))).

(** [LinkController.redirectLink] *)
Definition redirectLink (shortCode : string) (res : Http.Response)
  : LinkService.M Http.Response :=
  LinkService.bind (LinkService.resolveShortCode shortCode)
    (λ link,
       LinkService.ret
         (Http.redirect encodeUrl 301 (Link.originalUrl link) res)).

(** A route handler, with [errorHandler] taking over when it throws. *)
Definition route (h : Http.Response → LinkService.M Http.Response)
    (res : Http.Response) (sv : LinkService.State)
  : Http.Response * LinkService.State :=
  match h res sv with
  | (LinkService.Ok res', sv') => (res', sv')
  | (LinkService.Throw e, sv') => (Http.errorHandler e res, sv')
  end.

(** One request through [app]: [globalRateLimiter] first, then for
    [POST /api/links] the [createLinkRateLimiter], then the controller.  A
    middleware that does not call [next] ends the chain. *)
Definition handle (clk : Clock) (req : Request) (a : State)
  : Http.Response * State :=
  let ip := ipOf req in
  let g := RateLimiter.rateLimiterMiddleware RateLimiter.globalOptions
             (globalStore a) ip (globalNow clk) (globalLater clk) Http.fresh in
  if RateLimiter.nextCalled g then
    match req with
    | PostLink _ baseUrl url =>
        let c := RateLimiter.rateLimiterMiddleware RateLimiter.createLinkOptions
                   (createLinkStore a) ip (routeNow clk) (routeLater clk)
                   (RateLimiter.response g) in
        if RateLimiter.nextCalled c then
          let '(res, sv) :=
            route (createLink (created clk) baseUrl url)
                  (RateLimiter.response c) (service a) in
          (res, Build (RateLimiter.store g) (RateLimiter.store c) sv)
        else
          (RateLimiter.response c,
           Build (RateLimiter.store g) (RateLimiter.store c) (service a))
    | GetLink _ shortCode =>
        let '(res, sv) :=
          route (redirectLink shortCode) (RateLimiter.response g) (service a) in
        (res, Build (RateLimiter.store g) (createLinkStore a) sv)
    end
  else
    (RateLimiter.response g,
     Build (RateLimiter.store g) (createLinkStore a) (service a)).

End Handlers.
End App.

(* ===================================================================== *)
(** * Properties *)
(* ===================================================================== *)

(** ** Insertion-ordered maps *)

Section JsMapFacts.
Context {V : Type}.
Implicit Types (m : JsMap.t V) (k : string) (v : V).

Lemma jsmap_delete_cons k0 v0 m k :
  JsMap.delete ((k0, v0) :: m) k =
  if decide (k0 = k) then JsMap.delete m k else (k0, v0) :: JsMap.delete m k.
Proof.
  unfold JsMap.delete. destruct (decide (k0 = k)) as [Heq|Hne].
  - by rewrite (filter_cons_False (λ kv : string * V, kv.1 ≠ k)) by tauto.
  - by rewrite (filter_cons_True (λ kv : string * V, kv.1 ≠ k)) by done.
Qed.

Lemma keys_filter_cons (k0 : string) (l : list string) k :
  filter (λ x, x ≠ k) (k0 :: l) =
  if decide (k0 = k) then filter (λ x, x ≠ k) l
  else k0 :: filter (λ x, x ≠ k) l.
Proof.
  destruct (decide (k0 = k)) as [Heq|Hne].
  - by rewrite (filter_cons_False (λ x : string, x ≠ k)) by tauto.
  - by rewrite (filter_cons_True (λ x : string, x ≠ k)) by done.
Qed.

Lemma jsmap_keys_delete m k :
  JsMap.keys (JsMap.delete m k) = filter (λ x, x ≠ k) (JsMap.keys m).
Proof.
  induction m as [|[k' v'] m IH]; [done|].
  rewrite jsmap_delete_cons. unfold JsMap.keys in *.
  rewrite fmap_cons, keys_filter_cons. cbn [fst].
  destruct (decide (k' = k)); [done|]. rewrite fmap_cons. by f_equal.
Qed.

Lemma jsmap_get_None m k : JsMap.get m k = None ↔ k ∉ JsMap.keys m.
Proof.
  unfold JsMap.keys.
  induction m as [|[k' v'] m IH]; simpl.
  - split; [intros _; apply not_elem_of_nil | done].
  - rewrite not_elem_of_cons. destruct (decide (k' = k)) as [->|Hne].
    + split; [done | intros [? _]; done].
    + rewrite IH. split; [intros ?; split; [congruence | done] | tauto].
Qed.

Lemma jsmap_has_true m k : JsMap.has m k = true ↔ k ∈ JsMap.keys m.
Proof.
  unfold JsMap.has. destruct (JsMap.get m k) eqn:E.
  - split; [intros _ | done].
    destruct (decide (k ∈ JsMap.keys m)) as [|Hn]; [done|].
    apply jsmap_get_None in Hn. congruence.
  - apply jsmap_get_None in E. split; [done | tauto].
Qed.

Lemma jsmap_has_false m k : JsMap.has m k = false ↔ k ∉ JsMap.keys m.
Proof.
  rewrite <- jsmap_has_true. destruct (JsMap.has m k); split; congruence.
Qed.

Lemma jsmap_delete_absent m k : k ∉ JsMap.keys m → JsMap.delete m k = m.
Proof.
  induction m as [|[k' v'] m IH]; [done|].
  unfold JsMap.keys in *. rewrite fmap_cons, not_elem_of_cons. cbn [fst].
  intros [Hne Hn]. rewrite jsmap_delete_cons.
  destruct (decide (k' = k)); [congruence|]. f_equal. by apply IH.
Qed.

Lemma jsmap_set_absent m k v :
  k ∉ JsMap.keys m → JsMap.set m k v = m ++ [(k, v)].
Proof.
  unfold JsMap.keys.
  induction m as [|[k' v'] m IH]; [done|].
  rewrite fmap_cons, not_elem_of_cons; simpl. intros [Hne Hn].
  destruct (decide (k' = k)); [congruence|]. by rewrite IH.
Qed.

Lemma jsmap_not_in_delete m k : k ∉ JsMap.keys (JsMap.delete m k).
Proof. rewrite jsmap_keys_delete, list_elem_of_filter. tauto. Qed.

Lemma jsmap_get_app m1 m2 k :
  JsMap.get (m1 ++ m2) k =
  match JsMap.get m1 k with Some v => Some v | None => JsMap.get m2 k end.
Proof.
  induction m1 as [|[k' v'] m1 IH]; simpl; [done|].
  by destruct (decide (k' = k)).
Qed.

Lemma jsmap_get_delete m k k' :
  JsMap.get (JsMap.delete m k) k' =
  if decide (k = k') then None else JsMap.get m k'.
Proof.
  destruct (decide (k = k')) as [<-|Hne].
  - apply jsmap_get_None, jsmap_not_in_delete.
  - induction m as [|[k0 v0] m IH]; [done|].
    rewrite jsmap_delete_cons.
    destruct (decide (k0 = k)) as [->|Hk]; simpl;
      destruct (decide (_ = k')); try done; congruence.
Qed.

Lemma jsmap_delete_head m k v :
  k ∉ JsMap.keys m → JsMap.delete ((k, v) :: m) k = m.
Proof.
  intros Hn. rewrite jsmap_delete_cons.
  destruct (decide (k = k)); [|done]. by apply jsmap_delete_absent.
Qed.

Lemma jsmap_key_of_get m k v : JsMap.get m k = Some v → k ∈ JsMap.keys m.
Proof.
  intros E. apply jsmap_has_true. unfold JsMap.has. by rewrite E.
Qed.

Lemma jsmap_size_keys m : JsMap.size m = length (JsMap.keys m).
Proof. unfold JsMap.size, JsMap.keys. by rewrite length_fmap. Qed.

End JsMapFacts.

(** ** Sorted lists *)

Section SortedFacts.
Context {A : Type}.
Implicit Types (R : relation A) (l : list A).

Lemma ss_filter R (P : A → Prop) `{!∀ x, Decision (P x)} l :
  StronglySorted R l → StronglySorted R (filter P l).
Proof.
  induction 1 as [|x l Hl IH Hx]; [constructor|].
  destruct (decide (P x)).
  - rewrite (filter_cons_True P) by done. constructor; [done|].
    apply Forall_forall. intros y [_ Hy]%list_elem_of_filter.
    by eapply Forall_forall in Hx.
  - by rewrite (filter_cons_False P) by done.
Qed.

Lemma ss_mono R R' l :
  (∀ x y, x ∈ l → y ∈ l → R x y → R' x y) →
  StronglySorted R l → StronglySorted R' l.
Proof.
  intros HR Hl. induction Hl as [|x l Hl IH Hx]; constructor.
  - apply IH. intros a b Ha Hb. apply HR; by right.
  - apply Forall_forall. intros y Hy. apply HR; [by left | by right |].
    by eapply Forall_forall in Hx.
Qed.

Lemma ss_NoDup R `{!Irreflexive R} l : StronglySorted R l → NoDup l.
Proof.
  induction 1 as [|x l Hl IH Hx]; constructor; [|done].
  intros Hin. eapply Forall_forall in Hx; [|done]. by eapply irreflexivity.
Qed.

End SortedFacts.

(** ** The LRU cache *)

Section LruFacts.
Context {T : Type} `{!JsValue T}.
Implicit Types (c : LruCache.t T) (k key : string) (v value : T).
Implicit Types (tr : list (LruCache.Op T)) (o : LruCache.Op T).

Lemma lru_inserted_eq c k v :
  LruCache.inserted c k v =
  JsMap.delete (LruCache.entries c) k ++ [(k, v)].
Proof.
  unfold LruCache.inserted. destruct (JsMap.has _ k) eqn:E.
  - apply jsmap_set_absent, jsmap_not_in_delete.
  - apply jsmap_has_false in E.
    rewrite (jsmap_delete_absent _ _ E). by apply jsmap_set_absent.
Qed.

Lemma lru_keys_inserted c k v :
  JsMap.keys (LruCache.inserted c k v) =
  filter (λ x, x ≠ k) (LruCache.keys c) ++ [k].
Proof.
  rewrite lru_inserted_eq. unfold JsMap.keys at 1.
  rewrite fmap_app. fold (JsMap.keys (JsMap.delete (LruCache.entries c) k)).
  by rewrite jsmap_keys_delete.
Qed.

Lemma lru_get_hit c k v :
  JsMap.get (LruCache.entries c) k = Some v →
  isUndefined v = false →
  LruCache.get c k =
  (Some v,
   LruCache.with_entries c (JsMap.delete (LruCache.entries c) k ++ [(k, v)])).
Proof.
  intros E Hv. unfold LruCache.get. rewrite E, Hv.
  by rewrite jsmap_set_absent by apply jsmap_not_in_delete.
Qed.

Lemma lru_get_miss c k :
  JsMap.get (LruCache.entries c) k = None → LruCache.get c k = (None, c).
Proof. intros E. unfold LruCache.get. by rewrite E. Qed.

Lemma lru_get_undefined c k v :
  JsMap.get (LruCache.entries c) k = Some v →
  isUndefined v = true →
  LruCache.get c k = (None, c).
Proof. intros E Hv. unfold LruCache.get. by rewrite E, Hv. Qed.

(** A [get] either returns at once, or finds a value that is not
    [undefined] and moves its key to the end. *)
Lemma lru_get_cases c k :
  LruCache.get c k = (None, c) ∨
  ∃ v, JsMap.get (LruCache.entries c) k = Some v ∧
       isUndefined v = false ∧
       LruCache.get c k =
       (Some v,
        LruCache.with_entries c
          (JsMap.delete (LruCache.entries c) k ++ [(k, v)])).
Proof.
  destruct (JsMap.get (LruCache.entries c) k) as [v|] eqn:E.
  - destruct (isUndefined v) eqn:Hv.
    + left. by eapply lru_get_undefined.
    + right. exists v. split_and!; try done. by apply lru_get_hit.
  - left. by apply lru_get_miss.
Qed.

Lemma lru_get_keeps_lookup c k x :
  JsMap.get (LruCache.entries (LruCache.get c k).2) x
  = JsMap.get (LruCache.entries c) x.
Proof.
  destruct (lru_get_cases c k) as [->|(v & E & _ & ->)]; [done|].
  cbn [snd LruCache.with_entries LruCache.entries].
  rewrite jsmap_get_app, jsmap_get_delete.
  destruct (decide (k = x)) as [<-|Hne]; cbn.
  - destruct (decide (k = k)); [by rewrite E | done].
  - destruct (JsMap.get (LruCache.entries c) x); [done|].
    by destruct (decide (k = x)).
Qed.

Lemma lru_evict_lookup (N : Z) (e : JsMap.t T) x y :
  JsMap.get (LruCache.evict N e) x = Some y → JsMap.get e x = Some y.
Proof.
  unfold LruCache.evict. destruct (_ >? N); [|done].
  destruct (JsMap.first_key e) as [k0|]; [|done].
  rewrite jsmap_get_delete. by destruct (decide (k0 = x)).
Qed.

Lemma lru_inserted_lookup c k v x :
  JsMap.get (LruCache.inserted c k v) x =
  if decide (k = x) then Some v else JsMap.get (LruCache.entries c) x.
Proof.
  rewrite lru_inserted_eq, jsmap_get_app, jsmap_get_delete. cbn.
  destruct (decide (k = x)); [done|].
  by destruct (JsMap.get (LruCache.entries c) x).
Qed.

Lemma lru_has_keys c k : LruCache.has c k = true ↔ k ∈ LruCache.keys c.
Proof. apply jsmap_has_true. Qed.

Lemma lru_keys_evict (N : Z) (e : JsMap.t T) :
  JsMap.keys (LruCache.evict N e) =
  if Z.of_nat (JsMap.size e) >? N then
    match JsMap.keys e with
    | k0 :: _ => filter (λ x, x ≠ k0) (JsMap.keys e)
    | [] => []
    end
  else JsMap.keys e.
Proof.
  unfold LruCache.evict. destruct (_ >? N); [|done].
  unfold JsMap.first_key. destruct e as [|[k0 v0] e]; [done|].
  cbn [JsMap.keys fmap list_fmap head fst].
  apply (jsmap_keys_delete ((k0, v0) :: e) k0).
Qed.

(** *** Recency read off the calls *)

Lemma last_touch_snoc tr o k :
  LruCache.last_touch (tr ++ [o]) k =
  if LruCache.touches o k then S (length tr) else LruCache.last_touch tr k.
Proof.
  unfold LruCache.last_touch. rewrite rev_unit. cbn [LruCache.last_touch_rev].
  by rewrite length_cons, length_rev.
Qed.

Lemma last_touch_rev_le (rtr : list (LruCache.Op T)) k :
  (LruCache.last_touch_rev rtr k ≤ length rtr)%nat.
Proof.
  induction rtr as [|o rtr IH]; simpl; [lia|].
  destruct (LruCache.touches o k); lia.
Qed.

Lemma last_touch_le tr k : (LruCache.last_touch tr k ≤ length tr)%nat.
Proof.
  unfold LruCache.last_touch. rewrite <- (length_rev tr).
  apply last_touch_rev_le.
Qed.

#[global] Instance older_irrefl tr : Irreflexive (LruCache.older tr).
Proof. intros x H. unfold LruCache.older in H. lia. Qed.

Lemma sorted_untouched tr o (l : list string) :
  (∀ x, x ∈ l → LruCache.touches o x = false) →
  StronglySorted (LruCache.older tr) l →
  StronglySorted (LruCache.older (tr ++ [o])) l.
Proof.
  intros Hun. apply ss_mono. intros x y Hx Hy.
  unfold LruCache.older. rewrite !last_touch_snoc.
  by rewrite (Hun x Hx), (Hun y Hy).
Qed.

Lemma sorted_promote tr o k (l : list string) :
  (∀ x, LruCache.touches o x = bool_decide (k = x)) →
  StronglySorted (LruCache.older tr) l →
  StronglySorted (LruCache.older (tr ++ [o])) (filter (λ x, x ≠ k) l ++ [k]).
Proof.
  intros Ho Hl. apply StronglySorted_app; split_and!.
  - intros x1 x2 [Hne _]%list_elem_of_filter ->%list_elem_of_singleton.
    unfold LruCache.older. rewrite !last_touch_snoc, !Ho.
    rewrite bool_decide_eq_false_2 by congruence.
    rewrite bool_decide_eq_true_2 by done.
    pose proof (last_touch_le tr x1). lia.
  - apply (ss_mono (LruCache.older tr)); [|by apply ss_filter].
    intros x y [Hx _]%list_elem_of_filter [Hy _]%list_elem_of_filter.
    unfold LruCache.older. rewrite !last_touch_snoc, !Ho.
    by rewrite !bool_decide_eq_false_2 by congruence.
  - repeat constructor.
Qed.

Lemma lru_step_defined c o :
  LruCache.defined_op o → LruCache.stored_defined c →
  LruCache.stored_defined (LruCache.step c o).
Proof.
  unfold LruCache.stored_defined, LruCache.step. intros Ho Hc x y.
  destruct o as [k|k v|k| |]; cbn [LruCache.call snd LruCache.defined_op] in *.
  - pose proof (lru_get_keeps_lookup c k x) as Hk.
    destruct (LruCache.get c k) as [r c']. cbn [snd] in *.
    rewrite Hk. apply Hc.
  - unfold LruCache.set. cbn [LruCache.with_entries LruCache.entries].
    intros H%lru_evict_lookup. rewrite lru_inserted_lookup in H.
    destruct (decide (k = x)); [congruence | by eapply Hc].
  - apply Hc.
  - apply Hc.
  - done.
Qed.

Lemma lru_step_sorted tr c o :
  LruCache.stored_defined c →
  LruCache.recency_sorted tr c →
  LruCache.recency_sorted (tr ++ [o]) (LruCache.step c o).
Proof.
  unfold LruCache.recency_sorted, LruCache.step. intros Hdef Hc.
  destruct o as [k|k v|k| |]; cbn [LruCache.call snd].
  - destruct (JsMap.get (LruCache.entries c) k) as [v|] eqn:E.
    + rewrite (lru_get_hit _ _ _ E (Hdef _ _ E)). cbn [snd].
      pose proof (lru_keys_inserted c k v) as Hk.
      rewrite lru_inserted_eq in Hk. unfold LruCache.keys at 1.
      cbn [LruCache.with_entries LruCache.entries]. rewrite Hk.
      by apply sorted_promote.
    + rewrite (lru_get_miss _ _ E). cbn [snd].
      apply sorted_untouched; [|done]. intros x Hx. cbn.
      apply bool_decide_eq_false_2. intros ->.
      by apply jsmap_get_None in E.
  - unfold LruCache.set, LruCache.keys at 1.
    cbn [LruCache.with_entries LruCache.entries].
    assert (StronglySorted (LruCache.older (tr ++ [LruCache.OSet k v]))
              (JsMap.keys (LruCache.inserted c k v))) as Hs.
    { rewrite lru_keys_inserted. by apply sorted_promote. }
    rewrite lru_keys_evict. destruct (_ >? _); [|done].
    destruct (JsMap.keys _) as [|k0 ks]; [constructor|]. by apply ss_filter.
  - by apply sorted_untouched.
  - by apply sorted_untouched.
  - constructor.
Qed.

Lemma lru_run_snoc c tr o :
  LruCache.run c (tr ++ [o]) = LruCache.step (LruCache.run c tr) o.
Proof. unfold LruCache.run. by rewrite foldl_app. Qed.

Lemma lru_run_defined (N : Z) tr :
  Forall LruCache.defined_op tr →
  LruCache.stored_defined (LruCache.run (LruCache.new N) tr).
Proof.
  induction tr as [|o tr IH] using rev_ind; [done|].
  intros [Htr Ho]%Forall_app. rewrite lru_run_snoc.
  apply lru_step_defined; [|by apply IH].
  by inversion Ho.
Qed.

Lemma lru_run_sorted (N : Z) tr :
  Forall LruCache.defined_op tr →
  LruCache.recency_sorted tr (LruCache.run (LruCache.new N) tr).
Proof.
  induction tr as [|o tr IH] using rev_ind; [constructor|].
  intros [Htr Ho]%Forall_app. rewrite lru_run_snoc.
  apply lru_step_sorted; [by apply lru_run_defined | by apply IH].
Qed.

Lemma lru_step_maxSize c o :
  LruCache.maxSize (LruCache.step c o) = LruCache.maxSize c.
Proof.
  unfold LruCache.step. destruct o as [k|k v|k| |]; try done.
  cbn [LruCache.call].
  by destruct (lru_get_cases c k) as [->|(v & _ & _ & ->)].
Qed.

Lemma lru_run_maxSize c tr :
  LruCache.maxSize (LruCache.run c tr) = LruCache.maxSize c.
Proof.
  induction tr as [|o tr IH] using rev_ind; [done|].
  by rewrite lru_run_snoc, lru_step_maxSize.
Qed.

(** *** Sizes *)

Lemma filter_ne_id (l : list string) (x : string) :
  x ∉ l → filter (λ y, y ≠ x) l = l.
Proof.
  induction l as [|y l IH]; [done|].
  rewrite not_elem_of_cons, keys_filter_cons. intros [Hne Hn].
  destruct (decide (y = x)); [congruence|]. f_equal. by apply IH.
Qed.

Lemma lru_evict_wf (N : Z) (e : JsMap.t T) :
  JsMap.wf e →
  LruCache.evict N e = if Z.of_nat (JsMap.size e) >? N then tail e else e.
Proof.
  unfold LruCache.evict, JsMap.wf. intros Hwf. destruct (_ >? N); [|done].
  destruct e as [|[k0 v0] e]; [done|].
  cbn [JsMap.first_key JsMap.keys fmap list_fmap head fst tail].
  apply jsmap_delete_head. by apply NoDup_cons in Hwf as [? _].
Qed.

Lemma lru_size_inserted_le c k v :
  (JsMap.size (LruCache.inserted c k v) ≤ S (LruCache.size c))%nat.
Proof.
  rewrite lru_inserted_eq. unfold LruCache.size, JsMap.size, JsMap.delete.
  rewrite length_app. cbn [length]. rewrite Nat.add_1_r.
  apply le_n_S, length_filter.
Qed.

Lemma lru_size_inserted_pos c k v :
  (1 ≤ JsMap.size (LruCache.inserted c k v))%nat.
Proof.
  rewrite lru_inserted_eq. unfold JsMap.size. rewrite length_app.
  cbn [length]. lia.
Qed.

Lemma lru_size_evict (N : Z) (e : JsMap.t T) :
  0 ≤ N → Z.of_nat (JsMap.size e) ≤ N + 1 →
  Z.of_nat (JsMap.size (LruCache.evict N e)) ≤ N.
Proof.
  intros HN He. unfold LruCache.evict.
  destruct (Z.gtb_spec (Z.of_nat (JsMap.size e)) N) as [Hgt|Hle]; [|lia].
  destruct e as [|[k0 v0] e]; [cbn in *; lia|].
  cbn [JsMap.first_key JsMap.keys fmap list_fmap head fst].
  unfold JsMap.size, JsMap.delete in *.
  assert (∀ n m : nat, (n < m)%nat → Z.of_nat m ≤ N + 1 → Z.of_nat n ≤ N)
    as Haux by lia.
  eapply Haux; [|exact He].
  apply (length_filter_lt _ _ (k0, v0)); [by left | cbn; tauto].
Qed.

Lemma lru_size_get c k :
  (LruCache.size (LruCache.get c k).2 ≤ LruCache.size c)%nat.
Proof.
  destruct (lru_get_cases c k) as [->|(v & E & _ & ->)]; [done|].
  cbn [snd]. unfold LruCache.size, JsMap.size, JsMap.delete.
  cbn [LruCache.with_entries LruCache.entries].
  rewrite length_app. cbn [length].
  assert (∃ v', (k, v') ∈ LruCache.entries c) as [v' Hin].
  { apply jsmap_key_of_get in E. unfold JsMap.keys in E.
    apply list_elem_of_fmap in E as [[k' v'] [-> Hin]]. by exists v'. }
  rewrite Nat.add_1_r. apply Nat.le_succ_l.
  apply (length_filter_lt _ _ (k, v')); [done | cbn; tauto].
Qed.

Lemma lru_step_size (N : Z) c o :
  0 ≤ N → LruCache.maxSize c = N →
  Z.of_nat (LruCache.size c) ≤ N →
  Z.of_nat (LruCache.size (LruCache.step c o)) ≤ N.
Proof.
  intros HN HM Hc. unfold LruCache.step.
  destruct o as [k|k v|k| |]; cbn [LruCache.call snd]; try done.
  - pose proof (lru_size_get c k). destruct (LruCache.get c k). cbn in *. lia.
  - unfold LruCache.set, LruCache.size at 1.
    cbn [LruCache.with_entries LruCache.entries]. rewrite HM.
    apply lru_size_evict; [done|].
    pose proof (lru_size_inserted_le c k v). lia.
Qed.

Lemma lru_run_size (N : Z) tr :
  0 ≤ N → Z.of_nat (LruCache.size (LruCache.run (LruCache.new N) tr)) ≤ N.
Proof.
  intros HN. induction tr as [|o tr IH] using rev_ind; [cbn; lia|].
  rewrite lru_run_snoc. apply lru_step_size; [done| |done].
  by rewrite lru_run_maxSize.
Qed.

Lemma lru_inserted_wf c k v :
  JsMap.wf (LruCache.entries c) → JsMap.wf (LruCache.inserted c k v).
Proof.
  unfold JsMap.wf. intros Hwf. rewrite lru_keys_inserted.
  apply NoDup_app. split_and!.
  - by apply NoDup_filter.
  - intros x [Hne _]%list_elem_of_filter ->%list_elem_of_singleton. done.
  - apply NoDup_singleton.
Qed.

Lemma lru_evict_keeps_wf (N : Z) (e : JsMap.t T) :
  JsMap.wf e → JsMap.wf (LruCache.evict N e).
Proof.
  unfold JsMap.wf. intros Hwf. rewrite lru_keys_evict.
  destruct (_ >? N); [|done].
  destruct (JsMap.keys e) as [|k0 ks] eqn:Hk; [constructor|].
  by apply NoDup_filter.
Qed.

Lemma lru_step_wf c o :
  JsMap.wf (LruCache.entries c) →
  JsMap.wf (LruCache.entries (LruCache.step c o)).
Proof.
  intros Hwf. unfold LruCache.step.
  destruct o as [k|k v|k| |]; cbn [LruCache.call snd]; try done.
  - destruct (lru_get_cases c k) as [->|(v & _ & _ & ->)]; [done|].
    cbn [snd LruCache.with_entries LruCache.entries].
    rewrite <- lru_inserted_eq. by apply lru_inserted_wf.
  - unfold LruCache.set. cbn [LruCache.with_entries LruCache.entries].
    by apply lru_evict_keeps_wf, lru_inserted_wf.
  - constructor.
Qed.

Lemma lru_run_NoDup (N : Z) tr :
  NoDup (LruCache.keys (LruCache.run (LruCache.new N) tr)).
Proof.
  induction tr as [|o tr IH] using rev_ind; [constructor|].
  rewrite lru_run_snoc. by apply lru_step_wf.
Qed.

End LruFacts.

(** *** Capacity *)

(** C4. A cache built with capacity [N >= 0] never holds more than [N]
    entries, whatever calls were made on it.  A [set] whose insertion brings
    the size above [N] removes exactly one entry, the first of the map, and
    leaves the size at [N].  With [N = 0] every [set] leaves the cache
    empty. *)
Theorem lru_size_at_most_capacity {T} `{!JsValue T} (N : Z)
    (tr : list (LruCache.Op T)) :
  0 ≤ N →
  let c := LruCache.run (LruCache.new N) tr in
  Z.of_nat (LruCache.size c) ≤ N ∧
  (∀ key value,
     Z.of_nat (JsMap.size (LruCache.inserted c key value)) > N →
     (∃ oldest,
        LruCache.inserted c key value
        = oldest :: LruCache.entries (LruCache.set c key value)) ∧
     Z.of_nat (LruCache.size (LruCache.set c key value)) = N) ∧
  (N = 0 → ∀ key value, LruCache.entries (LruCache.set c key value) = []).
Proof.
  intros HN c.
  pose proof (lru_run_size N tr HN) as Hsize. fold c in Hsize.
  pose proof (lru_run_NoDup N tr) as Hwf. fold c in Hwf.
  assert (LruCache.maxSize c = N) as HM by apply lru_run_maxSize.
  assert (∀ key value,
            Z.of_nat (JsMap.size (LruCache.inserted c key value)) > N →
            (∃ oldest,
               LruCache.inserted c key value
               = oldest :: LruCache.entries (LruCache.set c key value)) ∧
            Z.of_nat (LruCache.size (LruCache.set c key value)) = N) as Hset.
  { intros key value Hgt.
    pose proof (lru_size_inserted_le c key value) as Hle.
    pose proof (lru_inserted_wf c key value Hwf) as Hiwf.
    unfold LruCache.set, LruCache.size at 1.
    cbn [LruCache.with_entries LruCache.entries].
    rewrite HM, (lru_evict_wf _ _ Hiwf).
    destruct (Z.gtb_spec (Z.of_nat (JsMap.size (LruCache.inserted c key value))) N)
      as [_|?]; [|lia].
    destruct (LruCache.inserted c key value) as [|oldest rest]; [cbn in *; lia|].
    cbn [tail]. split; [by exists oldest|].
    unfold JsMap.size in *. cbn [length] in *. lia. }
  split_and!; [done|done|].
  intros -> key value. destruct (Hset key value) as [_ Hz].
  - pose proof (lru_size_inserted_pos c key value). lia.
  - unfold LruCache.size, JsMap.size in Hz.
    destruct (LruCache.entries _); [done | cbn in Hz; lia].
Qed.

Lemma lru_size_at_most_capacity_witness :
  0 ≤ 1 ∧
  let c := LruCache.run (LruCache.new 1) [LruCache.OSet "A" 7%nat] in
  Z.of_nat (LruCache.size c) ≤ 1 ∧
  (∀ key value,
     Z.of_nat (JsMap.size (LruCache.inserted c key value)) > 1 →
     (∃ oldest,
        LruCache.inserted c key value
        = oldest :: LruCache.entries (LruCache.set c key value)) ∧
     Z.of_nat (LruCache.size (LruCache.set c key value)) = 1) ∧
  (1 = 0 → ∀ key value, LruCache.entries (LruCache.set c key value) = []).
Proof.
  split; [lia|].
  apply (lru_size_at_most_capacity 1 [LruCache.OSet "A" 7%nat]). lia.
Defined.

(** *** [has] *)

Lemma lru_run_without_has {T} `{!JsValue T} (c : LruCache.t T) (tr : list (LruCache.Op T)) :
  LruCache.run c (filter (λ o, LruCache.is_has o = false) tr)
  = LruCache.run c tr.
Proof.
  revert c. induction tr as [|o tr IH]; intros c; [done|].
  destruct (LruCache.is_has o) eqn:E.
  - rewrite (filter_cons_False (λ o, LruCache.is_has o = false)) by congruence.
    rewrite IH. destruct o; try discriminate. done.
  - rewrite (filter_cons_True (λ o, LruCache.is_has o = false)) by done.
    cbn [LruCache.run foldl]. apply IH.
Qed.

Lemma lru_run_has_repeated {T} `{!JsValue T} (c : LruCache.t T) (n : nat) (key : string) :
  LruCache.run c (replicate n (LruCache.OHas key)) = c.
Proof. induction n as [|n IH]; [done|]. exact IH. Qed.

(** C5. [has] returns the membership of the key and leaves the cache as it
    was: entries, their order, and capacity.  Removing every [has] call from
    a sequence of calls therefore leads to the same cache, so the same
    evictions.  With capacity 1, [set(A)], any number of [has(A)], then
    [set(B)] leaves [B] alone in the cache. *)
Theorem lru_has_changes_nothing {T} `{!JsValue T} :
  (∀ (c : LruCache.t T) key,
     LruCache.call (LruCache.OHas key) c
     = (LruCache.RBool (LruCache.has c key), c)) ∧
  (∀ (c : LruCache.t T) tr,
     LruCache.run c (filter (λ o, LruCache.is_has o = false) tr)
     = LruCache.run c tr) ∧
  (∀ (n : nat) (a b : T),
     let c := LruCache.run (LruCache.new 1)
                (LruCache.OSet "A" a
                   :: replicate n (LruCache.OHas "A") ++ [LruCache.OSet "B" b]) in
     LruCache.has c "A" = false ∧ LruCache.has c "B" = true ∧
     LruCache.entries c = [("B", b)]).
Proof.
  split_and!; [done | apply lru_run_without_has |].
  intros n a b c. subst c. unfold LruCache.run.
  cbn [foldl]. rewrite foldl_app.
  change (foldl LruCache.step ?c (replicate n ?o))
    with (LruCache.run c (replicate n o)).
  rewrite lru_run_has_repeated. vm_compute. done.
Qed.

(** *** Eviction order *)

Section LruEviction.
Context {T : Type} `{!JsValue T}.
Implicit Types (c : LruCache.t T) (k key : string) (v value : T).

Lemma tail_drop {A} (l : list A) (d : nat) : tail (drop d l) = drop (S d) l.
Proof.
  revert d. induction l as [|x l IH]; intros [|d]; cbn; done.
Qed.

Lemma lru_sets_entries (N : Z) (kvs : list (string * T)) :
  0 ≤ N → NoDup kvs.*1 →
  LruCache.entries (LruCache.run (LruCache.new N) (LruCache.sets kvs))
  = drop (length kvs - Z.to_nat N) kvs.
Proof.
  intros HN. induction kvs as [|[k v] kvs IH] using rev_ind; intros Hnd; [done|].
  rewrite fmap_app in Hnd. apply NoDup_app in Hnd as (Hnd & Hk & _).
  specialize (IH Hnd).
  assert (k ∉ kvs.*1) as Hfresh.
  { intros Hin. apply (Hk k Hin). by left. }
  unfold LruCache.sets in *. rewrite fmap_app. cbn [fmap list_fmap fst snd].
  rewrite lru_run_snoc.
  set (c := LruCache.run (LruCache.new N) _) in *.
  pose proof (lru_run_NoDup N ((λ kv, LruCache.OSet kv.1 kv.2) <$> kvs)) as Hwf.
  fold c in Hwf.
  assert (LruCache.maxSize c = N) as HM by apply lru_run_maxSize.
  unfold LruCache.step. cbn [LruCache.call snd]. unfold LruCache.set.
  cbn [LruCache.with_entries LruCache.entries].
  rewrite HM, (lru_evict_wf _ _ (lru_inserted_wf c k v Hwf)).
  rewrite lru_inserted_eq, IH.
  set (d := (length kvs - Z.to_nat N)%nat).
  rewrite jsmap_delete_absent.
  2:{ unfold JsMap.keys. rewrite fmap_drop. intros Hin.
      apply Hfresh. by eapply subseteq_drop. }
  rewrite <- (drop_app_le kvs [(k, v)] d) by (unfold d; lia).
  unfold JsMap.size. rewrite length_drop, length_app. cbn [length].
  destruct (Z.gtb_spec (Z.of_nat (length kvs + 1 - d)) N) as [Hgt|Hle].
  - rewrite tail_drop. f_equal. unfold d in *. lia.
  - f_equal. unfold d in *. lia.
Qed.

End LruEviction.

(** C1, as the code has it.  In a cache of capacity [N >= 1], reached by
    any sequence of calls that never stored [undefined], a [set] whose
    insertion brings the size above [N] removes one key: a key that was
    present, is not the key being set, and was last touched by a [get] or
    [set] before every key that remains.  A [get] of a key whose value is
    not [undefined] returns the value, moves the key to the most recent
    position and keeps the stored values; a [get] of a key that holds
    [undefined] returns [undefined] and leaves the cache as it was.  With
    capacity 2 and a first value that is not [undefined],
    [set(A); set(B); get(A); set(C)] leaves [A] and [C].  Setting [N+1]
    distinct keys in a new cache leaves the last [N] of them. *)
Theorem lru_evicts_least_recently_touched {T} `{!JsValue T} (N : Z) :
  1 ≤ N →
  (∀ (tr : list (LruCache.Op T)) key value,
     Forall LruCache.defined_op tr →
     let c := LruCache.run (LruCache.new N) tr in
     let c' := LruCache.set c key value in
     let tr' := tr ++ [LruCache.OSet key value] in
     Z.of_nat (JsMap.size (LruCache.inserted c key value)) > N →
     ∃ evicted,
       LruCache.has c evicted = true ∧ evicted ≠ key ∧
       (∀ x, LruCache.has c' x = true
             ↔ (LruCache.has c x = true ∨ x = key) ∧ x ≠ evicted) ∧
       Z.of_nat (LruCache.size c') = N ∧
       (∀ x, LruCache.has c' x = true →
             (LruCache.last_touch tr' evicted < LruCache.last_touch tr' x)%nat)) ∧
  (∀ (c : LruCache.t T) key value,
     JsMap.get (LruCache.entries c) key = Some value →
     if isUndefined value then LruCache.get c key = (None, c)
     else
       (LruCache.get c key).1 = Some value ∧
       last (LruCache.keys (LruCache.get c key).2) = Some key ∧
       (∀ x, JsMap.get (LruCache.entries (LruCache.get c key).2) x
             = JsMap.get (LruCache.entries c) x)) ∧
  (∀ a b d : T,
     isUndefined a = false →
     LruCache.keys
       (LruCache.run (LruCache.new 2)
          [LruCache.OSet "A" a; LruCache.OSet "B" b; LruCache.OGet "A";
           LruCache.OSet "C" d]) = ["A"; "C"]) ∧
  (∀ kvs : list (string * T),
     NoDup kvs.*1 → Z.of_nat (length kvs) = N + 1 →
     LruCache.entries (LruCache.run (LruCache.new N) (LruCache.sets kvs))
     = tail kvs).
Proof.
  intros HN. split_and!.
  - intros tr key value Hdef c c' tr' Hgt.
    pose proof (lru_run_size N tr ltac:(lia)) as Hsize. fold c in Hsize.
    pose proof (lru_run_sorted N tr Hdef) as Hsorted. fold c in Hsorted.
    assert (LruCache.maxSize c = N) as HM by apply lru_run_maxSize.
    assert (StronglySorted (LruCache.older tr')
              (JsMap.keys (LruCache.inserted c key value))) as Hs.
    { rewrite lru_keys_inserted. by apply sorted_promote. }
    assert (LruCache.keys c' = JsMap.keys
              (LruCache.evict N (LruCache.inserted c key value))) as Hk'.
    { unfold c', LruCache.set, LruCache.keys. by rewrite HM. }
    rewrite lru_keys_evict in Hk'.
    destruct (Z.gtb_spec (Z.of_nat (JsMap.size (LruCache.inserted c key value))) N)
      as [_|?]; [|lia].
    pose proof (lru_size_inserted_le c key value) as Hle.
    rewrite jsmap_size_keys in Hgt, Hle.
    rewrite lru_keys_inserted in Hs, Hk', Hgt, Hle.
    destruct (filter (λ x, x ≠ key) (LruCache.keys c)) as [|e rest] eqn:Hf.
    { cbn in Hgt. lia. }
    cbn [app] in Hs, Hk'.
    pose proof (ss_NoDup _ _ Hs) as Hnd.
    apply NoDup_cons in Hnd as [He _].
    apply StronglySorted_cons in Hs as [Hmin _].
    rewrite keys_filter_cons in Hk'.
    destruct (decide (e = e)); [|done].
    rewrite (filter_ne_id _ _ He) in Hk'.
    assert (e ∈ LruCache.keys c ∧ e ≠ key) as [Hin Hne].
    { assert (e ∈ filter (λ x, x ≠ key) (LruCache.keys c)) as Hin
        by (rewrite Hf; by left).
      apply list_elem_of_filter in Hin. tauto. }
    exists e. split_and!.
    + by apply lru_has_keys.
    + done.
    + intros x. rewrite !lru_has_keys, Hk'. split.
      * intros Hx. split; [|by intros ->].
        apply elem_of_app in Hx as [Hx| ->%list_elem_of_singleton]; [|by right].
        left. assert (x ∈ filter (λ x, x ≠ key) (LruCache.keys c)) as Hx'
          by (rewrite Hf; by right).
        apply list_elem_of_filter in Hx'. tauto.
      * intros [[Hx| ->] Hxe]; [|apply elem_of_app; right; by left].
        destruct (decide (x = key)) as [->|Hxk];
          [apply elem_of_app; right; by left|].
        assert (x ∈ filter (λ x, x ≠ key) (LruCache.keys c)) as Hx'
          by (by apply list_elem_of_filter).
        rewrite Hf in Hx'. apply elem_of_cons in Hx' as [->|Hx']; [done|].
        apply elem_of_app; by left.
    + unfold LruCache.size. rewrite jsmap_size_keys.
      change (JsMap.keys (LruCache.entries c')) with (LruCache.keys c').
      rewrite Hk'. cbn [app length] in Hgt, Hle. lia.
    + intros x Hx%lru_has_keys. rewrite Hk' in Hx.
      eapply Forall_forall in Hmin; [exact Hmin | done].
  - intros c key value E. destruct (isUndefined value) eqn:Hv.
    { by eapply lru_get_undefined. }
    split_and!; [| |apply lru_get_keeps_lookup];
      rewrite (lru_get_hit _ _ _ E Hv); cbn [fst snd]; [done|].
    unfold LruCache.keys, JsMap.keys.
    cbn [LruCache.with_entries LruCache.entries].
    rewrite fmap_app. apply last_snoc.
  - intros a b d Ha. unfold isUndefined in Ha. vm_compute.
    rewrite Ha. reflexivity.
  - intros kvs Hnd Hlen. rewrite lru_sets_entries by (done || lia).
    replace (length kvs - Z.to_nat N)%nat with 1%nat by lia.
    by destruct kvs.
Qed.

Lemma lru_evicts_least_recently_touched_witness :
  1 ≤ 2 ∧
  let tr := [LruCache.OSet "A" 1%nat; LruCache.OSet "B" 2%nat;
             LruCache.OGet "A"] in
  Forall LruCache.defined_op tr ∧
  let c := LruCache.run (LruCache.new 2) tr in
  let c' := LruCache.set c "C" 3%nat in
  let tr' := tr ++ [LruCache.OSet "C" 3%nat] in
  Z.of_nat (JsMap.size (LruCache.inserted c "C" 3%nat)) > 2 ∧
  ∃ evicted,
    LruCache.has c evicted = true ∧ evicted ≠ "C" ∧
    (∀ x, LruCache.has c' x = true
          ↔ (LruCache.has c x = true ∨ x = "C") ∧ x ≠ evicted) ∧
    Z.of_nat (LruCache.size c') = 2 ∧
    (∀ x, LruCache.has c' x = true →
          (LruCache.last_touch tr' evicted < LruCache.last_touch tr' x)%nat).
Proof.
  split; [lia|]. intros tr.
  assert (Forall LruCache.defined_op tr) as Hdef
    by (repeat constructor).
  split; [exact Hdef|]. intros c c' tr'. split; [vm_compute; done|].
  apply (proj1 (lru_evicts_least_recently_touched (T:=nat) 2 ltac:(lia))
           tr "C" 3%nat Hdef).
  vm_compute. done.
Defined.

(** C1, as stated, fails when a stored value is [undefined].  Capacity 2,
    values of type [number | undefined]: [set(A, undefined)], [set(B, 1)],
    [get(A)], [set(C, 2)].  [A] is present when [get(A)] is called, but the
    call returns at once and does not move [A]; the last [set] then evicts
    [A], although [B] was last touched before [A], and leaves [B] and
    [C]. *)
Lemma lru_stored_undefined_is_not_promoted :
  let tr := [LruCache.OSet "A" (None : option nat);
             LruCache.OSet "B" (Some 1%nat)] in
  let c := LruCache.run (LruCache.new 2) tr in
  let c1 := LruCache.run (LruCache.new 2) (tr ++ [LruCache.OGet "A"]) in
  let tr' := tr ++ [LruCache.OGet "A"; LruCache.OSet "C" (Some 2%nat)] in
  LruCache.has c "A" = true ∧
  LruCache.keys c1 = ["A"; "B"] ∧
  LruCache.keys (LruCache.run (LruCache.new 2) tr') = ["B"; "C"] ∧
  (LruCache.last_touch tr' "B" < LruCache.last_touch tr' "A")%nat.
Proof. vm_compute. split_and!; try reflexivity. Qed.

(** ** The rate limiter store *)

Section StoreFacts.
Implicit Types (s : RateLimiterStore.t) (key : string).

Lemma check_fresh s now key :
  (RateLimiterStore.entries s !! key = None ∨
   ∃ e, RateLimiterStore.entries s !! key = Some e ∧
        now >= RateLimitEntry.resetAt e) →
  RateLimiterStore.check s now key =
  (RateLimitResult.Build false (RateLimiterStore.maxRequests s - 1)
                         (now + RateLimiterStore.windowMs s),
   RateLimiterStore.with_entries s
     (<[key := RateLimitEntry.Build 1 (now + RateLimiterStore.windowMs s)]>
        (RateLimiterStore.entries s))).
Proof.
  unfold RateLimiterStore.check. intros [-> | (e & -> & He)]; [done|].
  by rewrite bool_decide_eq_true_2.
Qed.

Lemma check_live s now key n R :
  RateLimiterStore.entries s !! key = Some (RateLimitEntry.Build n R) →
  now < R →
  RateLimiterStore.check s now key =
  (RateLimiterStore.verdict (RateLimiterStore.maxRequests s) R (n + 1),
   RateLimiterStore.with_entries s
     (<[key := RateLimitEntry.Build (n + 1) R]> (RateLimiterStore.entries s))).
Proof.
  unfold RateLimiterStore.check, RateLimiterStore.verdict. intros -> Hlt.
  cbn [RateLimitEntry.resetAt RateLimitEntry.count].
  rewrite bool_decide_eq_false_2 by lia. by case_bool_decide.
Qed.

Lemma checks_in_window s key times n R rs s' :
  RateLimiterStore.entries s !! key = Some (RateLimitEntry.Build n R) →
  Forall (λ t, t < R) times →
  RateLimiterStore.checks s key times = (rs, s') →
  length rs = length times ∧
  RateLimiterStore.entries s' !! key
  = Some (RateLimitEntry.Build (n + Z.of_nat (length times)) R) ∧
  RateLimiterStore.windowMs s' = RateLimiterStore.windowMs s ∧
  RateLimiterStore.maxRequests s' = RateLimiterStore.maxRequests s ∧
  ∀ (i : nat) r, rs !! i = Some r →
    r = RateLimiterStore.verdict (RateLimiterStore.maxRequests s) R
          (n + 1 + Z.of_nat i).
Proof.
  revert s n rs s'. induction times as [|t ts IH]; intros s n rs s' Hs Hts Hrun.
  - cbn in Hrun. injection Hrun as <- <-. cbn [length].
    rewrite Z.add_0_r. split_and!; try done.
  - apply Forall_cons in Hts as [Ht Hts].
    cbn [RateLimiterStore.checks] in Hrun.
    rewrite (check_live _ _ _ _ _ Hs Ht) in Hrun.
    destruct (RateLimiterStore.checks _ key ts) as [rs1 s1] eqn:Hrest.
    injection Hrun as <- <-.
    apply (IH _ (n + 1)) in Hrest as (Hlen & Hent & HW & HM & Hres);
      [|apply lookup_insert_eq|done].
    cbn [RateLimiterStore.with_entries RateLimiterStore.windowMs
         RateLimiterStore.maxRequests] in *.
    split_and!; try done.
    + cbn [length]. by rewrite Hlen.
    + rewrite Hent. do 2 f_equal. cbn [length]. lia.
    + intros [|i] r Hr.
      * cbn in Hr. injection Hr as <-. f_equal. lia.
      * cbn in Hr. rewrite (Hres i r Hr). f_equal. lia.
Qed.

End StoreFacts.

(** C2. Let [key] have no entry, or an entry whose [resetAt] has passed at
    time [t1].  A [check] at [t1] followed by any number of [check]s at
    times before [t1 + windowMs] behaves as follows.  Call 1 stores
    [count = 1, resetAt = t1 + windowMs] and answers [isLimited = false,
    remaining = maxRequests - 1].  Call [n >= 2] answers the same [resetAt],
    and [isLimited = false, remaining = maxRequests - n] while
    [n <= maxRequests], [isLimited = true, remaining = 0] afterwards.  The
    stored window is never restarted: after all calls the entry holds the
    number of calls made and the [resetAt] of call 1.  (This holds for every
    [windowMs] and [maxRequests], in particular for both at least 1.) *)
Theorem check_counts_within_fixed_window
    (s : RateLimiterStore.t) (key : string) (t1 : Z) (later : list Z) :
  let W := RateLimiterStore.windowMs s in
  let M := RateLimiterStore.maxRequests s in
  (RateLimiterStore.entries s !! key = None ∨
   ∃ e, RateLimiterStore.entries s !! key = Some e ∧
        t1 >= RateLimitEntry.resetAt e) →
  Forall (λ t, t < t1 + W) later →
  ∃ r1 s1 rs s',
    RateLimiterStore.check s t1 key = (r1, s1) ∧
    RateLimiterStore.checks s key (t1 :: later) = (r1 :: rs, s') ∧
    r1 = RateLimitResult.Build false (M - 1) (t1 + W) ∧
    RateLimiterStore.entries s1 !! key
    = Some (RateLimitEntry.Build 1 (t1 + W)) ∧
    length rs = length later ∧
    (∀ (i : nat) r, rs !! i = Some r →
       let n := Z.of_nat i + 2 in
       RateLimitResult.resetAt r = t1 + W ∧
       (n ≤ M → RateLimitResult.isLimited r = false ∧
                RateLimitResult.remaining r = M - n) ∧
       (n > M → RateLimitResult.isLimited r = true ∧
                RateLimitResult.remaining r = 0)) ∧
    RateLimiterStore.entries s' !! key
    = Some (RateLimitEntry.Build (1 + Z.of_nat (length later)) (t1 + W)).
Proof.
  intros W M Hfresh Hlater.
  pose proof (check_fresh s t1 key Hfresh) as Hc1. fold W M in Hc1.
  destruct (RateLimiterStore.checks
              (RateLimiterStore.with_entries s
                 (<[key := RateLimitEntry.Build 1 (t1 + W)]>
                    (RateLimiterStore.entries s))) key later)
    as [rs s'] eqn:Hrest.
  eexists _, _, rs, s'. split; [exact Hc1|].
  split. { cbn [RateLimiterStore.checks]. by rewrite Hc1, Hrest. }
  apply (checks_in_window _ _ _ 1 (t1 + W)) in Hrest
    as (Hlen & Hent & _ & HM & Hres); [|apply lookup_insert_eq|done].
  cbn [RateLimiterStore.with_entries RateLimiterStore.maxRequests] in HM, Hres.
  fold M in Hres. split_and!; try done.
  - apply lookup_insert_eq.
  - intros i r Hr n. rewrite (Hres i r Hr).
    unfold RateLimiterStore.verdict.
    case_bool_decide; cbn; split_and!; try done; intros; try lia;
      (split; [done|lia]).
Qed.

Lemma check_counts_within_fixed_window_witness :
  let s := RateLimiterStore.new 100 2 in
  (RateLimiterStore.entries s !! "k" = None ∨
   ∃ e, RateLimiterStore.entries s !! "k" = Some e ∧
        5 >= RateLimitEntry.resetAt e) ∧
  Forall (λ t, t < 5 + 100) [6; 104] ∧
  ∃ r1 s1 rs s',
    RateLimiterStore.check s 5 "k" = (r1, s1) ∧
    RateLimiterStore.checks s "k" [5; 6; 104] = (r1 :: rs, s') ∧
    r1 = RateLimitResult.Build false (2 - 1) (5 + 100) ∧
    RateLimiterStore.entries s1 !! "k"
    = Some (RateLimitEntry.Build 1 (5 + 100)) ∧
    length rs = 2%nat ∧
    (∀ (i : nat) r, rs !! i = Some r →
       let n := Z.of_nat i + 2 in
       RateLimitResult.resetAt r = 5 + 100 ∧
       (n ≤ 2 → RateLimitResult.isLimited r = false ∧
                RateLimitResult.remaining r = 2 - n) ∧
       (n > 2 → RateLimitResult.isLimited r = true ∧
                RateLimitResult.remaining r = 0)) ∧
    RateLimiterStore.entries s' !! "k"
    = Some (RateLimitEntry.Build (1 + Z.of_nat 2) (5 + 100)).
Proof.
  intros s.
  assert (RateLimiterStore.entries s !! "k" = None ∨
          ∃ e, RateLimiterStore.entries s !! "k" = Some e ∧
               5 >= RateLimitEntry.resetAt e) as H1 by (left; reflexivity).
  assert (Forall (λ t, t < 5 + 100) [6; 104]) as H2
    by (repeat constructor; lia).
  split; [exact H1|]. split; [exact H2|].
  exact (check_counts_within_fixed_window s "k" 5 [6; 104] H1 H2).
Defined.

(** C10. Whatever the threshold, a [check] for a key with no live window
    answers [isLimited = false] and [remaining = maxRequests - 1] and opens
    the window [now + windowMs].  With [maxRequests = 0] the answer carries
    [remaining = -1]. *)
Theorem check_first_call_is_allowed
    (s : RateLimiterStore.t) (now : Z) (key : string) :
  (RateLimiterStore.entries s !! key = None ∨
   ∃ e, RateLimiterStore.entries s !! key = Some e ∧
        now >= RateLimitEntry.resetAt e) →
  let r := (RateLimiterStore.check s now key).1 in
  RateLimitResult.isLimited r = false ∧
  RateLimitResult.remaining r = RateLimiterStore.maxRequests s - 1 ∧
  RateLimitResult.resetAt r = now + RateLimiterStore.windowMs s ∧
  (RateLimiterStore.maxRequests s = 0 →
   RateLimitResult.remaining r = -1 ∧ ¬ (0 ≤ RateLimitResult.remaining r)).
Proof.
  intros Hfresh r. subst r. rewrite (check_fresh s now key Hfresh).
  cbn. split_and!; try done. intros ->. split; [done | lia].
Qed.

Lemma check_first_call_is_allowed_witness :
  let s := RateLimiterStore.new 60000 0 in
  (RateLimiterStore.entries s !! "10.0.0.1" = None ∨
   ∃ e, RateLimiterStore.entries s !! "10.0.0.1" = Some e ∧
        1000 >= RateLimitEntry.resetAt e) ∧
  let r := (RateLimiterStore.check s 1000 "10.0.0.1").1 in
  RateLimitResult.isLimited r = false ∧
  RateLimitResult.remaining r = RateLimiterStore.maxRequests s - 1 ∧
  RateLimitResult.resetAt r = 1000 + RateLimiterStore.windowMs s ∧
  (RateLimiterStore.maxRequests s = 0 →
   RateLimitResult.remaining r = -1 ∧ ¬ (0 ≤ RateLimitResult.remaining r)).
Proof.
  intros s.
  assert (RateLimiterStore.entries s !! "10.0.0.1" = None ∨
          ∃ e, RateLimiterStore.entries s !! "10.0.0.1" = Some e ∧
               1000 >= RateLimitEntry.resetAt e) as H1 by (left; reflexivity).
  split; [exact H1|].
  exact (check_first_call_is_allowed s 1000 "10.0.0.1" H1).
Defined.

(** ** The rate limiter middleware *)

Lemma jsmap_get_set {V} (m : JsMap.t V) (k k' : string) (v : V) :
  JsMap.get (JsMap.set m k v) k' =
  if decide (k = k') then Some v else JsMap.get m k'.
Proof.
  induction m as [|[k0 v0] m IH]; cbn.
  - by destruct (decide (k = k')).
  - destruct (decide (k0 = k)) as [->|Hne]; cbn.
    + by destruct (decide (k = k')).
    + destruct (decide (k0 = k')) as [->|Hne'].
      * by destruct (decide (k = k')); [congruence|].
      * exact IH.
Qed.

Lemma ceil_div_1000_spec (a : Z) :
  1000 * (RateLimiter.ceil_div a 1000 - 1) < a ≤ 1000 * RateLimiter.ceil_div a 1000.
Proof.
  unfold RateLimiter.ceil_div.
  pose proof (Z.div_mod (- a) 1000 ltac:(lia)).
  pose proof (Z.mod_pos_bound (- a) 1000 ltac:(lia)). lia.
Qed.

Lemma check_limited_live (s : RateLimiterStore.t) (now : Z) (key : string) :
  RateLimitResult.isLimited (RateLimiterStore.check s now key).1 = true →
  now < RateLimitResult.resetAt (RateLimiterStore.check s now key).1.
Proof.
  unfold RateLimiterStore.check.
  destruct (RateLimiterStore.entries s !! key) as [e|]; [|done].
  case_bool_decide as Hnow; [done|].
  case_bool_decide; cbn; [lia | done].
Qed.

(** C3, as the code has it.  On a denied invocation the middleware answers
    status 429 with the configured message and code, does not call [next],
    and sends [Retry-After = ceil((resetAt - later) / 1000)], where [later]
    is the clock read after [check] returned.  The value is not clamped: it
    is non-negative exactly when [later < resetAt + 1000], and it is at
    least 1 when the clock still shows the reading [check] used. *)
Theorem rate_limiter_denial_response
    (options : RateLimiterOptions.t) (st : RateLimiterStore.t)
    (ip : option string) (now later : Z) (res : Http.Response) :
  let result := (RateLimiterStore.check st now (default "unknown" ip)).1 in
  let out := RateLimiter.rateLimiterMiddleware options st ip now later res in
  RateLimitResult.isLimited result = true →
  Http.statusCode (RateLimiter.response out) = 429 ∧
  Http.body (RateLimiter.response out)
  = Http.ErrorEnvelope (RateLimiterOptions.message options)
                       (RateLimiterOptions.code options) ∧
  RateLimiter.nextCalled out = false ∧
  ∃ retryAfter,
    Http.header (RateLimiter.response out) "Retry-After"
    = Some (Http.HNum retryAfter) ∧
    1000 * (retryAfter - 1) < RateLimitResult.resetAt result - later
      ≤ 1000 * retryAfter ∧
    (0 ≤ retryAfter ↔ later < RateLimitResult.resetAt result + 1000) ∧
    (later = now → 1 ≤ retryAfter).
Proof.
  intros result out Hlim.
  pose proof (check_limited_live st now (default "unknown" ip) Hlim) as Hlive.
  fold result in Hlive.
  subst out. unfold RateLimiter.rateLimiterMiddleware.
  destruct (RateLimiterStore.check st now (default "unknown" ip))
    as [r st'] eqn:Hcheck.
  cbn [fst] in result. subst result. rewrite Hlim.
  cbn [RateLimiter.response RateLimiter.nextCalled].
  split_and!; try done.
  exists (RateLimiter.ceil_div (RateLimitResult.resetAt r - later) 1000).
  pose proof (ceil_div_1000_spec (RateLimitResult.resetAt r - later)) as Hceil.
  split_and!.
  - unfold Http.header, Http.json, Http.status, Http.setHeader.
    cbn [Http.headers]. rewrite jsmap_get_set. by destruct (decide _).
  - lia.
  - lia.
  - lia.
  - intros ->. lia.
Qed.

Lemma rate_limiter_denial_response_witness :
  let options := RateLimiterOptions.Build 60000 1 "Too many requests"
                   "RATE_LIMIT_EXCEEDED" in
  let st := RateLimiter.store
              (RateLimiter.rateLimiterMiddleware options
                 (RateLimiter.createStore options) (Some "10.0.0.1") 0 0
                 Http.fresh) in
  let result := (RateLimiterStore.check st 10 "10.0.0.1").1 in
  let out := RateLimiter.rateLimiterMiddleware options st (Some "10.0.0.1")
               10 10 Http.fresh in
  RateLimitResult.isLimited result = true ∧
  Http.statusCode (RateLimiter.response out) = 429 ∧
  Http.body (RateLimiter.response out)
  = Http.ErrorEnvelope "Too many requests" "RATE_LIMIT_EXCEEDED" ∧
  RateLimiter.nextCalled out = false ∧
  ∃ retryAfter,
    Http.header (RateLimiter.response out) "Retry-After"
    = Some (Http.HNum retryAfter) ∧
    1000 * (retryAfter - 1) < RateLimitResult.resetAt result - 10
      ≤ 1000 * retryAfter ∧
    (0 ≤ retryAfter ↔ 10 < RateLimitResult.resetAt result + 1000) ∧
    (10 = 10 → 1 ≤ retryAfter).
Proof.
  intros options st result out.
  assert (RateLimitResult.isLimited result = true) as H1
    by (vm_compute; reflexivity).
  split; [exact H1|].
  exact (rate_limiter_denial_response options st (Some "10.0.0.1") 10 10
           Http.fresh H1).
Defined.

(** C3, as stated, fails: threshold 1, window 60000 ms.  The first request
    at time 0 is admitted and opens the window ending at 60000.  The second
    request is checked at 59999 and denied; the clock then reads 61000 when
    the header is computed, and [Retry-After] is [-1]. *)
Lemma rate_limiter_retry_after_negative :
  let options := RateLimiterOptions.Build 60000 1 "Too many requests"
                   "RATE_LIMIT_EXCEEDED" in
  let first := RateLimiter.rateLimiterMiddleware options
                 (RateLimiter.createStore options) (Some "10.0.0.1") 0 0
                 Http.fresh in
  let out := RateLimiter.rateLimiterMiddleware options
               (RateLimiter.store first) (Some "10.0.0.1") 59999 61000
               Http.fresh in
  RateLimiter.nextCalled first = true ∧
  RateLimiter.nextCalled out = false ∧
  Http.statusCode (RateLimiter.response out) = 429 ∧
  Http.header (RateLimiter.response out) "Retry-After"
  = Some (Http.HNum (-1)) ∧
  ¬ (0 ≤ -1).
Proof. vm_compute. split_and!; try done. Qed.

(** ** The link service *)

Section LruLookup.
Context {T : Type} `{!JsValue T}.
Implicit Types (c : LruCache.t T) (k x : string) (v y : T).

(** What [get] returns was stored under the key. *)
Lemma lru_get_Some c k v :
  (LruCache.get c k).1 = Some v → JsMap.get (LruCache.entries c) k = Some v.
Proof.
  destruct (lru_get_cases c k) as [->|(v' & E & _ & ->)]; [done|].
  cbn [fst]. congruence.
Qed.

Lemma lru_get_keeps_maxSize c k :
  LruCache.maxSize (LruCache.get c k).2 = LruCache.maxSize c.
Proof. by destruct (lru_get_cases c k) as [->|(v & _ & _ & ->)]. Qed.

(** Only the key being set can come to hold a new value. *)
Lemma lru_set_lookup_inv c k v x y :
  JsMap.get (LruCache.entries (LruCache.set c k v)) x = Some y →
  (x = k ∧ y = v) ∨ JsMap.get (LruCache.entries c) x = Some y.
Proof.
  unfold LruCache.set. cbn [LruCache.with_entries LruCache.entries].
  intros H%lru_evict_lookup. rewrite lru_inserted_lookup in H.
  destruct (decide (k = x)) as [->|]; [left | by right].
  split; congruence.
Qed.

(** With room for at least one entry, the key just set is present. *)
Lemma lru_set_lookup_same c k v :
  1 ≤ LruCache.maxSize c →
  JsMap.get (LruCache.entries (LruCache.set c k v)) k = Some v.
Proof.
  intros HN. unfold LruCache.set, LruCache.evict.
  cbn [LruCache.with_entries LruCache.entries].
  assert (JsMap.get (LruCache.inserted c k v) k = Some v) as Hk.
  { rewrite lru_inserted_lookup. by destruct (decide (k = k)). }
  destruct (Z.gtb_spec (Z.of_nat (JsMap.size (LruCache.inserted c k v)))
              (LruCache.maxSize c)) as [Hgt|_]; [|done].
  destruct (JsMap.first_key _) as [k0|] eqn:Hfirst; [|done].
  rewrite jsmap_get_delete. destruct (decide (k0 = k)) as [->|]; [|done].
  exfalso. rewrite lru_inserted_eq in Hfirst, Hgt.
  unfold JsMap.first_key, JsMap.keys in Hfirst.
  destruct (JsMap.delete (LruCache.entries c) k) as [|[k1 v1] rest] eqn:Hdel.
  - cbn in Hgt. lia.
  - cbn in Hfirst. injection Hfirst as ->.
    apply (jsmap_not_in_delete (LruCache.entries c) k).
    rewrite Hdel. by left.
Qed.

Lemma lru_set_keeps_maxSize c k v :
  LruCache.maxSize (LruCache.set c k v) = LruCache.maxSize c.
Proof. done. Qed.

End LruLookup.

Lemma findByShortCode_shortCode (r : InMemoryLinkRepository.t)
    (shortCode : string) (link : Link.t) :
  InMemoryLinkRepository.findByShortCode r shortCode = Some link →
  Link.shortCode link = shortCode.
Proof.
  unfold InMemoryLinkRepository.findByShortCode. intros H.
  apply fmap_Some in H as ([i l] & Hfind & ->).
  by apply list_find_Some in Hfind as (_ & ? & _).
Qed.

Section ServiceFacts.
Context (urlParses : string → bool).
Context (randomBytes : nat → nat → list Byte.byte).
Context (base64url : list Byte.byte → string).
Context (encodeUrl : string → string).

Local Abbreviation shortenUrl :=
  (LinkService.shortenUrl urlParses randomBytes base64url).
Local Abbreviation shortIdOfDraw :=
  (LinkService.shortIdOfDraw randomBytes base64url).
Local Abbreviation createLink :=
  (LinkService.createLink urlParses randomBytes base64url).
Local Abbreviation perform :=
  (LinkService.perform urlParses randomBytes base64url).
Local Abbreviation exec := (LinkService.exec urlParses randomBytes base64url).
Local Abbreviation reachable :=
  (LinkService.reachable urlParses randomBytes base64url).

Implicit Types (s : LinkService.State) (u url shortCode : string).
Implicit Types (link : Link.t) (now : Z).

Ltac run_service :=
  unfold LinkService.shortenUrl, LinkService.resolveShortCode,
    LinkService.validateUrl, LinkService.bind, LinkService.ret,
    LinkService.throw, LinkService.urlCache_get, LinkService.urlCache_set,
    LinkService.shortCodeCache_get, LinkService.shortCodeCache_set,
    LinkService.repo_save, LinkService.repo_findByShortCode,
    LinkService.generateShortId, InMemoryLinkRepository.save;
  cbn [LinkService.shortCodeCache LinkService.urlCache
       LinkService.linkRepository LinkService.draws LinkService.repoCalls].

Ltac state_fields :=
  cbn [LinkService.shortCodeCache LinkService.urlCache
       LinkService.linkRepository LinkService.draws LinkService.repoCalls].

Lemma shortenUrl_invalid now u s :
  urlParses u = false →
  shortenUrl now u s = (LinkService.Throw LinkService.invalidUrl, s).
Proof. intros E. run_service. by rewrite E. Qed.

Lemma shortenUrl_hit now u s link :
  urlParses u = true →
  LinkService.cached (LinkService.urlCache s) u = Some link →
  shortenUrl now u s =
  (LinkService.Ok link,
   LinkService.Build (LinkService.shortCodeCache s)
     (LruCache.get (LinkService.urlCache s) u).2
     (LinkService.linkRepository s) (LinkService.draws s)
     (LinkService.repoCalls s)).
Proof.
  intros E Hc. run_service. rewrite E.
  unfold LinkService.cached in Hc.
  by rewrite (@lru_get_hit _ Link_JsValue _ _ _ Hc eq_refl).
Qed.

Lemma shortenUrl_miss now u s :
  urlParses u = true →
  LinkService.cached (LinkService.urlCache s) u = None →
  let link := Link.Build (shortIdOfDraw (LinkService.draws s)) u
                (shortIdOfDraw (S (LinkService.draws s))) now in
  shortenUrl now u s =
  (LinkService.Ok link,
   LinkService.Build
     (LruCache.set (LinkService.shortCodeCache s) (Link.shortCode link) link)
     (LruCache.set (LinkService.urlCache s) u link)
     (InMemoryLinkRepository.Build
        (JsMap.set (InMemoryLinkRepository.links (LinkService.linkRepository s))
           (Link.id link) link))
     (S (S (LinkService.draws s)))
     (LinkService.CallSave link :: LinkService.repoCalls s)).
Proof.
  intros E Hc link. run_service. rewrite E.
  unfold LinkService.cached in Hc. rewrite (lru_get_miss _ _ Hc). done.
Qed.

Lemma resolve_hit shortCode s link :
  LinkService.cached (LinkService.shortCodeCache s) shortCode = Some link →
  LinkService.resolveShortCode shortCode s =
  (LinkService.Ok link,
   LinkService.Build
     (LruCache.get (LinkService.shortCodeCache s) shortCode).2
     (LinkService.urlCache s)
     (LinkService.linkRepository s) (LinkService.draws s)
     (LinkService.repoCalls s)).
Proof.
  intros Hc. run_service.
  unfold LinkService.cached in Hc.
  by rewrite (@lru_get_hit _ Link_JsValue _ _ _ Hc eq_refl).
Qed.

Lemma resolve_not_found shortCode s :
  LinkService.cached (LinkService.shortCodeCache s) shortCode = None →
  InMemoryLinkRepository.findByShortCode (LinkService.linkRepository s)
    shortCode = None →
  LinkService.resolveShortCode shortCode s =
  (LinkService.Throw LinkService.notFound,
   LinkService.Build (LinkService.shortCodeCache s) (LinkService.urlCache s)
     (LinkService.linkRepository s) (LinkService.draws s)
     (LinkService.CallFindByShortCode shortCode :: LinkService.repoCalls s)).
Proof.
  intros Hc Hf. run_service.
  unfold LinkService.cached in Hc. rewrite (lru_get_miss _ _ Hc).
  state_fields. by rewrite Hf.
Qed.

Lemma resolve_found shortCode s link :
  LinkService.cached (LinkService.shortCodeCache s) shortCode = None →
  InMemoryLinkRepository.findByShortCode (LinkService.linkRepository s)
    shortCode = Some link →
  LinkService.resolveShortCode shortCode s =
  (LinkService.Ok link,
   LinkService.Build
     (LruCache.set (LinkService.shortCodeCache s) shortCode link)
     (LruCache.set (LinkService.urlCache s) (Link.originalUrl link) link)
     (LinkService.linkRepository s) (LinkService.draws s)
     (LinkService.CallFindByShortCode shortCode :: LinkService.repoCalls s)).
Proof.
  intros Hc Hf. run_service.
  unfold LinkService.cached in Hc. rewrite (lru_get_miss _ _ Hc).
  state_fields. by rewrite Hf.
Qed.

Lemma caps_ok_room s :
  LinkService.caps_ok s →
  1 ≤ LruCache.maxSize (LinkService.shortCodeCache s) ∧
  1 ≤ LruCache.maxSize (LinkService.urlCache s).
Proof. intros [-> ->]. unfold LinkService.CACHE_MAX_SIZE. lia. Qed.

Lemma perform_caps_ok s call :
  LinkService.caps_ok s → LinkService.caps_ok (exec s call).
Proof.
  intros Hok. pose proof Hok as [Hsc Huc].
  unfold LinkService.exec. destruct call as [now u|shortCode]; cbn [LinkService.perform].
  - destruct (urlParses u) eqn:E; [|by rewrite shortenUrl_invalid].
    destruct (LinkService.cached (LinkService.urlCache s) u) as [l|] eqn:Hc.
    + rewrite (shortenUrl_hit _ _ _ _ E Hc). split; cbn; [done|].
      by rewrite lru_get_keeps_maxSize.
    + rewrite (shortenUrl_miss _ _ _ E Hc). by split.
  - destruct (LinkService.cached (LinkService.shortCodeCache s) shortCode)
      as [l|] eqn:Hc.
    + rewrite (resolve_hit _ _ _ Hc). split; cbn; [|done].
      by rewrite lru_get_keeps_maxSize.
    + destruct (InMemoryLinkRepository.findByShortCode
                  (LinkService.linkRepository s) shortCode) as [l|] eqn:Hf.
      * rewrite (resolve_found _ _ _ Hc Hf). by split.
      * rewrite (resolve_not_found _ _ Hc Hf). by split.
Qed.

Lemma reachable_caps_ok s : reachable s → LinkService.caps_ok s.
Proof.
  intros [calls ->]. induction calls as [|call calls IH] using rev_ind.
  - by split.
  - rewrite foldl_app. cbn [foldl]. by apply perform_caps_ok.
Qed.

(** C6. In one call of [shortenUrl] or [resolveShortCode], a link that
    newly appears in the short-code cache appears there under its own short
    code and is, after the call, in the URL cache under its [originalUrl];
    and a link that newly appears in the URL cache appears there under its
    [originalUrl] and is, after the call, in the short-code cache under its
    [shortCode]. *)
Theorem cache_population_writes_both_caches s (call : LinkService.Call) :
  LinkService.caps_ok s →
  let s' := exec s call in
  (∀ key link,
     LinkService.cached (LinkService.shortCodeCache s') key = Some link →
     LinkService.cached (LinkService.shortCodeCache s) key ≠ Some link →
     key = Link.shortCode link ∧
     LinkService.cached (LinkService.urlCache s') (Link.originalUrl link)
     = Some link) ∧
  (∀ key link,
     LinkService.cached (LinkService.urlCache s') key = Some link →
     LinkService.cached (LinkService.urlCache s) key ≠ Some link →
     key = Link.originalUrl link ∧
     LinkService.cached (LinkService.shortCodeCache s') (Link.shortCode link)
     = Some link).
Proof.
  intros Hok s'. destruct (caps_ok_room s Hok) as [Hsc Huc].
  subst s'. unfold LinkService.exec, LinkService.cached.
  destruct call as [now u|shortCode]; cbn [LinkService.perform].
  - destruct (urlParses u) eqn:E;
      [|rewrite shortenUrl_invalid by done; cbn [snd]; by split].
    destruct (LinkService.cached (LinkService.urlCache s) u) as [l|] eqn:Hc.
    + rewrite (shortenUrl_hit _ _ _ _ E Hc). cbn [snd]. state_fields.
      split; [done|]. intros key link. by rewrite lru_get_keeps_lookup.
    + rewrite (shortenUrl_miss _ _ _ E Hc). cbn [snd]. state_fields.
      cbn [Link.shortCode]. split.
      * intros key link [[-> ->]|Hold]%lru_set_lookup_inv Hnew; [|done].
        split; [done|]. by apply lru_set_lookup_same.
      * intros key link [[-> ->]|Hold]%lru_set_lookup_inv Hnew; [|done].
        split; [done|]. by apply lru_set_lookup_same.
  - destruct (LinkService.cached (LinkService.shortCodeCache s) shortCode)
      as [l|] eqn:Hc.
    + rewrite (resolve_hit _ _ _ Hc). cbn [snd]. state_fields.
      split; [|done]. intros key link. by rewrite lru_get_keeps_lookup.
    + destruct (InMemoryLinkRepository.findByShortCode
                  (LinkService.linkRepository s) shortCode) as [l|] eqn:Hf;
        [|rewrite (resolve_not_found _ _ Hc Hf); cbn [snd]; by split].
      rewrite (resolve_found _ _ _ Hc Hf). cbn [snd]. state_fields.
      pose proof (findByShortCode_shortCode _ _ _ Hf) as Hcode.
      split.
      * intros key link [[-> ->]|Hold]%lru_set_lookup_inv Hnew; [|done].
        split; [done|]. by apply lru_set_lookup_same.
      * intros key link [[-> ->]|Hold]%lru_set_lookup_inv Hnew; [|done].
        split; [done|]. rewrite Hcode. by apply lru_set_lookup_same.
Qed.

(** C7. For a URL that parses and is a key of the URL cache, [shortenUrl]
    returns the cached link, draws no random identifier, makes no repository
    call, and changes nothing but the recency order of the URL cache.
    Hence a second [shortenUrl] of a URL returns the link the first one
    returned, and so does a [shortenUrl] of the [originalUrl] of a link that
    [resolveShortCode] has just fetched from the repository. *)
Theorem create_returns_cached_link s u now :
  LinkService.caps_ok s → urlParses u = true →
  (∀ link,
     LinkService.cached (LinkService.urlCache s) u = Some link →
     ∃ s', shortenUrl now u s = (LinkService.Ok link, s') ∧
           LinkService.draws s' = LinkService.draws s ∧
           LinkService.repoCalls s' = LinkService.repoCalls s ∧
           LinkService.linkRepository s' = LinkService.linkRepository s ∧
           LinkService.shortCodeCache s' = LinkService.shortCodeCache s ∧
           (∀ x, LinkService.cached (LinkService.urlCache s') x
                 = LinkService.cached (LinkService.urlCache s) x)) ∧
  (∀ link1 s1 later,
     shortenUrl now u s = (LinkService.Ok link1, s1) →
     ∃ s2, shortenUrl later u s1 = (LinkService.Ok link1, s2) ∧
           LinkService.draws s2 = LinkService.draws s1 ∧
           LinkService.repoCalls s2 = LinkService.repoCalls s1) ∧
  (∀ shortCode link,
     LinkService.cached (LinkService.shortCodeCache s) shortCode = None →
     InMemoryLinkRepository.findByShortCode (LinkService.linkRepository s)
       shortCode = Some link →
     Link.originalUrl link = u →
     let s1 := (LinkService.resolveShortCode shortCode s).2 in
     ∃ s2, shortenUrl now u s1 = (LinkService.Ok link, s2) ∧
           LinkService.draws s2 = LinkService.draws s1 ∧
           LinkService.repoCalls s2 = LinkService.repoCalls s1).
Proof.
  intros Hok E. destruct (caps_ok_room s Hok) as [Hsc Huc].
  assert (∀ s0 t link,
            LinkService.cached (LinkService.urlCache s0) u = Some link →
            ∃ s', shortenUrl t u s0 = (LinkService.Ok link, s') ∧
                  LinkService.draws s' = LinkService.draws s0 ∧
                  LinkService.repoCalls s' = LinkService.repoCalls s0 ∧
                  LinkService.linkRepository s' = LinkService.linkRepository s0 ∧
                  LinkService.shortCodeCache s' = LinkService.shortCodeCache s0 ∧
                  (∀ x, LinkService.cached (LinkService.urlCache s') x
                        = LinkService.cached (LinkService.urlCache s0) x))
    as Hhit.
  { intros s0 t link Hc. eexists. split; [by apply shortenUrl_hit|].
    state_fields. split_and!; try done.
    intros x. apply lru_get_keeps_lookup. }
  split_and!.
  - intros link. apply Hhit.
  - intros link1 s1 later Hfirst.
    assert (LinkService.cached (LinkService.urlCache s1) u = Some link1) as Hc1.
    { destruct (LinkService.cached (LinkService.urlCache s) u) as [l|] eqn:Hc.
      - rewrite (shortenUrl_hit _ _ _ _ E Hc) in Hfirst.
        injection Hfirst as <- <-. state_fields.
        unfold LinkService.cached in *. by rewrite lru_get_keeps_lookup.
      - rewrite (shortenUrl_miss _ _ _ E Hc) in Hfirst.
        injection Hfirst as <- <-. state_fields.
        by apply lru_set_lookup_same. }
    destruct (Hhit s1 later link1 Hc1) as (s2 & H2 & Hd & Hr & _).
    by exists s2.
  - intros shortCode link Hc Hf Hu s1.
    assert (LinkService.cached (LinkService.urlCache s1) u = Some link) as Hc1.
    { subst s1. rewrite (resolve_found _ _ _ Hc Hf). cbn [snd]. state_fields.
      rewrite Hu. by apply lru_set_lookup_same. }
    destruct (Hhit s1 now link Hc1) as (s2 & H2 & Hd & Hr & _).
    by exists s2.
Qed.

(** C8. For a string that does not parse as a URL, [shortenUrl] throws the
    [AppError] with status 400 and code [INVALID_URL] and leaves the whole
    state as it was: both caches, the repository, no random draw and no
    repository call.  The controller answers 400 with that code. *)
Theorem create_rejects_malformed_url s u now (baseUrl : string) :
  urlParses u = false →
  shortenUrl now u s =
  (LinkService.Throw
     (Http.IsAppError
        (Http.Build_AppError "Invalid URL provided" 400 "INVALID_URL")), s) ∧
  ∃ res, LinkService.respond (createLink now baseUrl u) s = (res, s) ∧
         Http.statusCode res = 400 ∧
         Http.body res = Http.ErrorEnvelope "Invalid URL provided" "INVALID_URL".
Proof.
  intros E. split; [by apply shortenUrl_invalid|].
  unfold LinkService.respond, LinkService.createLink.
  unfold LinkService.bind at 1. rewrite (shortenUrl_invalid _ _ _ E).
  eexists. split; [reflexivity|]. by split.
Qed.

(** C9. [resolveShortCode] throws exactly when the short-code cache has no
    entry for the code and the repository finds no link with it; what it
    throws is the [AppError] with status 404 and code [LINK_NOT_FOUND], which
    the error handler sends as such.  When the cache has no entry and the
    repository finds a link, the call returns that link and leaves it in the
    short-code cache under the code and in the URL cache under its
    [originalUrl]. *)
Theorem resolve_not_found_iff s shortCode :
  LinkService.caps_ok s →
  let miss :=
    LinkService.cached (LinkService.shortCodeCache s) shortCode = None ∧
    InMemoryLinkRepository.findByShortCode (LinkService.linkRepository s)
      shortCode = None in
  let notFound :=
    Http.IsAppError
      (Http.Build_AppError "Short link not found" 404 "LINK_NOT_FOUND") in
  ((∃ e, (LinkService.resolveShortCode shortCode s).1 = LinkService.Throw e)
   ↔ miss) ∧
  ((LinkService.resolveShortCode shortCode s).1 = LinkService.Throw notFound
   ↔ miss) ∧
  (miss →
   let res :=
     (LinkService.respond (LinkService.redirectLink encodeUrl shortCode) s).1 in
   Http.statusCode res = 404 ∧
   Http.body res = Http.ErrorEnvelope "Short link not found" "LINK_NOT_FOUND") ∧
  (∀ link,
     LinkService.cached (LinkService.shortCodeCache s) shortCode = None →
     InMemoryLinkRepository.findByShortCode (LinkService.linkRepository s)
       shortCode = Some link →
     let s' := (LinkService.resolveShortCode shortCode s).2 in
     (LinkService.resolveShortCode shortCode s).1 = LinkService.Ok link ∧
     LinkService.cached (LinkService.shortCodeCache s') shortCode = Some link ∧
     LinkService.cached (LinkService.urlCache s') (Link.originalUrl link)
     = Some link).
Proof.
  intros Hok miss notFound. destruct (caps_ok_room s Hok) as [Hsc Huc].
  assert (∀ e, (LinkService.resolveShortCode shortCode s).1 = LinkService.Throw e
               → miss) as Hthrow.
  { intros e He. subst miss.
    destruct (LinkService.cached (LinkService.shortCodeCache s) shortCode)
      as [l|] eqn:Hc.
    { by rewrite (resolve_hit _ _ _ Hc) in He. }
    destruct (InMemoryLinkRepository.findByShortCode
                (LinkService.linkRepository s) shortCode) as [l|] eqn:Hf.
    { by rewrite (resolve_found _ _ _ Hc Hf) in He. }
    done. }
  split_and!.
  - split; [intros [e He]; by eapply Hthrow|].
    intros [Hc Hf]. exists notFound. by rewrite (resolve_not_found _ _ Hc Hf).
  - split; [apply Hthrow|].
    intros [Hc Hf]. by rewrite (resolve_not_found _ _ Hc Hf).
  - intros [Hc Hf] res. subst res.
    unfold LinkService.respond, LinkService.redirectLink.
    unfold LinkService.bind. by rewrite (resolve_not_found _ _ Hc Hf).
  - intros link Hc Hf s'. subst s'. rewrite (resolve_found _ _ _ Hc Hf).
    cbn [fst snd]. state_fields. split_and!; [done| |];
      by apply lru_set_lookup_same.
Qed.

End ServiceFacts.

Lemma cache_population_writes_both_caches_witness :
  let s := LinkService.new in
  let call := LinkService.Create 1700000000000 "https://example.com" in
  LinkService.caps_ok s ∧
  let s' := Sample.exec s call in
  (∀ key link,
     LinkService.cached (LinkService.shortCodeCache s') key = Some link →
     LinkService.cached (LinkService.shortCodeCache s) key ≠ Some link →
     key = Link.shortCode link ∧
     LinkService.cached (LinkService.urlCache s') (Link.originalUrl link)
     = Some link) ∧
  (∀ key link,
     LinkService.cached (LinkService.urlCache s') key = Some link →
     LinkService.cached (LinkService.urlCache s) key ≠ Some link →
     key = Link.originalUrl link ∧
     LinkService.cached (LinkService.shortCodeCache s') (Link.shortCode link)
     = Some link).
Proof.
  intros s call.
  assert (LinkService.caps_ok s) as H1 by (split; reflexivity).
  split; [exact H1|].
  exact (cache_population_writes_both_caches Sample.urlParses
           Sample.randomBytes Sample.base64url s call H1).
Defined.

Lemma create_returns_cached_link_witness :
  let s := Sample.exec LinkService.new
             (LinkService.Create 1700000000000 "https://example.com") in
  let u := "https://example.com" in
  let now := 1700000000500 in
  LinkService.caps_ok s ∧ Sample.urlParses u = true ∧
  (∀ link,
     LinkService.cached (LinkService.urlCache s) u = Some link →
     ∃ s', Sample.shortenUrl now u s = (LinkService.Ok link, s') ∧
           LinkService.draws s' = LinkService.draws s ∧
           LinkService.repoCalls s' = LinkService.repoCalls s ∧
           LinkService.linkRepository s' = LinkService.linkRepository s ∧
           LinkService.shortCodeCache s' = LinkService.shortCodeCache s ∧
           (∀ x, LinkService.cached (LinkService.urlCache s') x
                 = LinkService.cached (LinkService.urlCache s) x)) ∧
  (∀ link1 s1 later,
     Sample.shortenUrl now u s = (LinkService.Ok link1, s1) →
     ∃ s2, Sample.shortenUrl later u s1 = (LinkService.Ok link1, s2) ∧
           LinkService.draws s2 = LinkService.draws s1 ∧
           LinkService.repoCalls s2 = LinkService.repoCalls s1) ∧
  (∀ shortCode link,
     LinkService.cached (LinkService.shortCodeCache s) shortCode = None →
     InMemoryLinkRepository.findByShortCode (LinkService.linkRepository s)
       shortCode = Some link →
     Link.originalUrl link = u →
     let s1 := (LinkService.resolveShortCode shortCode s).2 in
     ∃ s2, Sample.shortenUrl now u s1 = (LinkService.Ok link, s2) ∧
           LinkService.draws s2 = LinkService.draws s1 ∧
           LinkService.repoCalls s2 = LinkService.repoCalls s1).
Proof.
  intros s u now.
  assert (LinkService.caps_ok s) as H1 by (split; reflexivity).
  assert (Sample.urlParses u = true) as H2 by reflexivity.
  split; [exact H1|]. split; [exact H2|].
  exact (create_returns_cached_link Sample.urlParses Sample.randomBytes
           Sample.base64url s u now H1 H2).
Defined.

Lemma create_rejects_malformed_url_witness :
  let s := Sample.exec LinkService.new
             (LinkService.Create 1700000000000 "https://example.com") in
  let u := "not a url" in
  Sample.urlParses u = false ∧
  Sample.shortenUrl 1700000000500 u s =
  (LinkService.Throw
     (Http.IsAppError
        (Http.Build_AppError "Invalid URL provided" 400 "INVALID_URL")), s) ∧
  ∃ res, LinkService.respond
           (Sample.createLink 1700000000500 "http://localhost:3000" u) s
         = (res, s) ∧
         Http.statusCode res = 400 ∧
         Http.body res = Http.ErrorEnvelope "Invalid URL provided" "INVALID_URL".
Proof.
  intros s u.
  assert (Sample.urlParses u = false) as H1 by reflexivity.
  split; [exact H1|].
  exact (create_rejects_malformed_url Sample.urlParses Sample.randomBytes
           Sample.base64url s u 1700000000500 "http://localhost:3000" H1).
Defined.

Lemma resolve_not_found_iff_witness :
  let s := Sample.exec LinkService.new
             (LinkService.Create 1700000000000 "https://example.com") in
  let shortCode := "zzzzzzz" in
  LinkService.caps_ok s ∧
  let miss :=
    LinkService.cached (LinkService.shortCodeCache s) shortCode = None ∧
    InMemoryLinkRepository.findByShortCode (LinkService.linkRepository s)
      shortCode = None in
  let notFound :=
    Http.IsAppError
      (Http.Build_AppError "Short link not found" 404 "LINK_NOT_FOUND") in
  ((∃ e, (LinkService.resolveShortCode shortCode s).1 = LinkService.Throw e)
   ↔ miss) ∧
  ((LinkService.resolveShortCode shortCode s).1 = LinkService.Throw notFound
   ↔ miss) ∧
  (miss →
   let res :=
     (LinkService.respond
        (LinkService.redirectLink Sample.encodeUrl shortCode) s).1 in
   Http.statusCode res = 404 ∧
   Http.body res = Http.ErrorEnvelope "Short link not found" "LINK_NOT_FOUND") ∧
  (∀ link,
     LinkService.cached (LinkService.shortCodeCache s) shortCode = None →
     InMemoryLinkRepository.findByShortCode (LinkService.linkRepository s)
       shortCode = Some link →
     let s' := (LinkService.resolveShortCode shortCode s).2 in
     (LinkService.resolveShortCode shortCode s).1 = LinkService.Ok link ∧
     LinkService.cached (LinkService.shortCodeCache s') shortCode = Some link ∧
     LinkService.cached (LinkService.urlCache s') (Link.originalUrl link)
     = Some link).
Proof.
  intros s shortCode.
  assert (LinkService.caps_ok s) as H1 by (split; reflexivity).
  split; [exact H1|].
  exact (resolve_not_found_iff Sample.encodeUrl s shortCode H1).
Defined.

(** ** Worked examples *)

Example lru_demo :
  LruCache.keys
    (LruCache.run (LruCache.new 2)
       [LruCache.OSet "A" 1%nat; LruCache.OSet "B" 2%nat; LruCache.OGet "A";
        LruCache.OSet "C" 3%nat]) = ["A"; "C"].
Proof. vm_compute. reflexivity. Qed.

Example lru_capacity_zero_demo :
  LruCache.entries (LruCache.set (LruCache.new 0) "A" 1%nat) = [].
Proof. vm_compute. reflexivity. Qed.

Example limiter_demo :
  (RateLimiterStore.checks (RateLimiterStore.new 60000 2) "k" [5; 6; 7]).1
  = [RateLimitResult.Build false 1 60005;
     RateLimitResult.Build false 0 60005;
     RateLimitResult.Build true 0 60005].
Proof. vm_compute. reflexivity. Qed.

Example limiter_rollover_demo :
  (RateLimiterStore.checks (RateLimiterStore.new 100 1) "k" [0; 50; 150]).1
  = [RateLimitResult.Build false 0 100;
     RateLimitResult.Build true 0 100;
     RateLimitResult.Build false 0 250].
Proof. vm_compute. reflexivity. Qed.

Example create_twice_demo :
  let '(r1, s1) := Sample.shortenUrl 10 "https://example.com" LinkService.new in
  let '(r2, s2) := Sample.shortenUrl 20 "https://example.com" s1 in
  r1 = LinkService.Ok (Link.Build "aaaaaaa" "https://example.com" "bbbbbbb" 10)
  ∧ r2 = r1
  ∧ LinkService.draws s2 = 2%nat
  ∧ LinkService.repoCalls s2
    = [LinkService.CallSave
         (Link.Build "aaaaaaa" "https://example.com" "bbbbbbb" 10)].
Proof. vm_compute. split_and!; reflexivity. Qed.

Example resolve_then_create_demo :
  let link := Link.Build "id00001" "https://example.com" "code001" 10 in
  let s := LinkService.Build (LruCache.new 50) (LruCache.new 50)
             (InMemoryLinkRepository.Build [("id00001", link)]) 0 [] in
  let '(r1, s1) := LinkService.resolveShortCode "code001" s in
  let '(r2, s2) := Sample.shortenUrl 20 "https://example.com" s1 in
  r1 = LinkService.Ok link ∧ r2 = LinkService.Ok link ∧
  LinkService.draws s2 = 0%nat ∧
  LinkService.repoCalls s2 = [LinkService.CallFindByShortCode "code001"].
Proof. vm_compute. split_and!; reflexivity. Qed.

(* ===================================================================== *)
(** * Further properties of the code *)
(* ===================================================================== *)

(** ** The LRU cache *)

Section LruMore.
Context {T : Type} `{!JsValue T}.
Implicit Types (c : LruCache.t T) (k key x : string) (v value : T).
Implicit Types (tr : list (LruCache.Op T)) (o : LruCache.Op T).

Lemma last_set_snoc tr o k :
  LruHistory.last_set (tr ++ [o]) k =
  match o with
  | LruCache.OSet key value =>
      if decide (key = k) then Some value else LruHistory.last_set tr k
  | LruCache.OClear => None
  | _ => LruHistory.last_set tr k
  end.
Proof.
  unfold LruHistory.last_set. rewrite rev_unit. by destruct o.
Qed.

Lemma lru_step_latest tr c o :
  (∀ k v, JsMap.get (LruCache.entries c) k = Some v →
          LruHistory.last_set tr k = Some v) →
  ∀ k v, JsMap.get (LruCache.entries (LruCache.step c o)) k = Some v →
         LruHistory.last_set (tr ++ [o]) k = Some v.
Proof.
  intros IH k v. rewrite last_set_snoc. unfold LruCache.step.
  destruct o as [key|key value|key| |]; cbn [LruCache.call snd].
  - pose proof (lru_get_keeps_lookup c key k) as Hk.
    destruct (LruCache.get c key) as [r c']. cbn [snd] in *.
    rewrite Hk. apply IH.
  - unfold LruCache.set. cbn [LruCache.with_entries LruCache.entries].
    intros H%lru_evict_lookup. rewrite lru_inserted_lookup in H.
    destruct (decide (key = k)); [done | by apply IH].
  - apply IH.
  - apply IH.
  - done.
Qed.

Lemma lru_run_latest (N : Z) tr k v :
  JsMap.get (LruCache.entries (LruCache.run (LruCache.new N) tr)) k = Some v →
  LruHistory.last_set tr k = Some v.
Proof.
  revert k v. induction tr as [|o tr IH] using rev_ind; [done|].
  intros k v. rewrite lru_run_snoc. by apply lru_step_latest.
Qed.

(** X1. Whatever calls were made on a cache, a [get] that returns a value
    returns the value of the latest [set] of that key (made after the latest
    [clear]): the cache never serves a stale or foreign value. *)
Theorem lru_get_returns_latest_set (N : Z) tr key value :
  (LruCache.get (LruCache.run (LruCache.new N) tr) key).1 = Some value →
  LruHistory.last_set tr key = Some value.
Proof. intros Hget%lru_get_Some. by eapply lru_run_latest. Qed.

(** X2. In any cache with room for at least one entry, a [get] that follows
    a [set] of the same key returns the value just set ([None] stands for
    the value [undefined]). *)
Theorem lru_set_then_get c key value :
  1 ≤ LruCache.maxSize c →
  (LruCache.get (LruCache.set c key value) key).1
  = if isUndefined value then None else Some value.
Proof.
  intros HN. pose proof (lru_set_lookup_same c key value HN) as Hk.
  unfold LruCache.get. rewrite Hk. by destruct (isUndefined value).
Qed.

Lemma jsmap_delete_length (m : JsMap.t T) k :
  JsMap.wf m → k ∈ JsMap.keys m →
  S (length (JsMap.delete m k)) = length m.
Proof.
  unfold JsMap.wf. induction m as [|[k0 v0] m IH]; intros Hwf Hin.
  { by apply elem_of_nil in Hin. }
  unfold JsMap.keys in *. rewrite fmap_cons in Hwf, Hin. cbn [fst] in *.
  apply NoDup_cons in Hwf as [Hk0 Hwf]. rewrite jsmap_delete_cons.
  destruct (decide (k0 = k)) as [->|Hne].
  - by rewrite (jsmap_delete_absent m k Hk0).
  - cbn [length]. f_equal. apply IH; [done|].
    apply elem_of_cons in Hin as [->|Hin]; done.
Qed.

(** X3. In a cache reached from [new LruCache(N)] with [N >= 0], a [set]
    of a key that is present, or a [set] made while the cache holds fewer
    than [N] entries, evicts nothing: the key takes the new value, every
    other key keeps its value, and the size stays the same for a present key
    and grows by one for a new key. *)
Theorem lru_set_without_eviction (N : Z) tr key value :
  0 ≤ N →
  let c := LruCache.run (LruCache.new N) tr in
  LruCache.has c key = true ∨ Z.of_nat (LruCache.size c) < N →
  LruCache.size (LruCache.set c key value)
  = (if LruCache.has c key then LruCache.size c else S (LruCache.size c)) ∧
  (∀ x, JsMap.get (LruCache.entries (LruCache.set c key value)) x
        = if decide (key = x) then Some value
          else JsMap.get (LruCache.entries c) x).
Proof.
  intros HN c Hroom.
  pose proof (lru_run_size N tr HN) as Hsize. fold c in Hsize.
  pose proof (lru_run_NoDup N tr) as Hwf. fold c in Hwf.
  assert (LruCache.maxSize c = N) as HM by apply lru_run_maxSize.
  assert (JsMap.size (LruCache.inserted c key value)
          = if LruCache.has c key then LruCache.size c
            else S (LruCache.size c)) as Hlen.
  { rewrite lru_inserted_eq. unfold JsMap.size, LruCache.size.
    rewrite length_app. cbn [length]. rewrite Nat.add_1_r.
    destruct (LruCache.has c key) eqn:Hhas.
    - apply jsmap_delete_length; [done | by apply lru_has_keys].
    - apply jsmap_has_false in Hhas. by rewrite (jsmap_delete_absent _ _ Hhas). }
  assert (LruCache.entries (LruCache.set c key value)
          = LruCache.inserted c key value) as Hent.
  { unfold LruCache.set, LruCache.evict.
    cbn [LruCache.with_entries LruCache.entries]. rewrite HM, Hlen.
    destruct (LruCache.has c key) eqn:Hhas.
    - destruct (Z.gtb_spec (Z.of_nat (LruCache.size c)) N); [lia | done].
    - destruct Hroom as [?|Hlt]; [done|].
      destruct (Z.gtb_spec (Z.of_nat (S (LruCache.size c))) N); [lia | done]. }
  split.
  - unfold LruCache.size at 1. by rewrite Hent, Hlen.
  - intros x. rewrite Hent. apply lru_inserted_lookup.
Qed.

Lemma jsmap_promote_perm (m : JsMap.t T) k v :
  JsMap.wf m → JsMap.get m k = Some v →
  JsMap.delete m k ++ [(k, v)] ≡ₚ m.
Proof.
  unfold JsMap.wf. induction m as [|[k0 v0] m IH]; intros Hwf Hget; [done|].
  unfold JsMap.keys in *. rewrite fmap_cons in Hwf. cbn [fst] in Hwf.
  apply NoDup_cons in Hwf as [Hk0 Hwf]. rewrite jsmap_delete_cons.
  cbn [JsMap.get] in Hget.
  destruct (decide (k0 = k)) as [->|Hne].
  - injection Hget as ->. rewrite (jsmap_delete_absent m k Hk0).
    symmetry. apply Permutation_cons_append.
  - cbn [app]. f_equiv. by apply IH.
Qed.

(** X4. A [get] on a cache reached by calls never changes what is stored:
    the entries afterwards are the entries before, reordered, and a miss
    leaves the cache exactly as it was. *)
Theorem lru_get_keeps_contents (N : Z) tr key :
  let c := LruCache.run (LruCache.new N) tr in
  LruCache.entries (LruCache.get c key).2 ≡ₚ LruCache.entries c ∧
  LruCache.maxSize (LruCache.get c key).2 = LruCache.maxSize c ∧
  (LruCache.has c key = false → LruCache.get c key = (None, c)).
Proof.
  intros c. pose proof (lru_run_NoDup N tr) as Hwf. fold c in Hwf.
  split_and!.
  - destruct (lru_get_cases c key) as [->|(v & E & _ & ->)]; [done|].
    cbn [snd LruCache.with_entries LruCache.entries].
    by apply jsmap_promote_perm.
  - apply lru_get_keeps_maxSize.
  - intros Hno. apply lru_get_miss.
    unfold LruCache.has, JsMap.has in Hno.
    by destruct (JsMap.get (LruCache.entries c) key).
Qed.

(** X5. A cache built with a capacity of zero or less stores nothing: after
    any calls it is empty, and every [get] returns [undefined]. *)
Theorem lru_nonpositive_capacity_stores_nothing (N : Z) tr :
  N ≤ 0 →
  let c := LruCache.run (LruCache.new N) tr in
  LruCache.entries c = [] ∧
  (∀ key, (LruCache.get c key).1 = None ∧ LruCache.has c key = false).
Proof.
  intros HN c.
  assert (LruCache.entries c = []) as Hempty.
  { subst c. induction tr as [|o tr IH] using rev_ind; [done|].
    rewrite lru_run_snoc.
    pose proof (lru_run_maxSize (LruCache.new N) tr) as HM.
    cbn [LruCache.new LruCache.maxSize] in HM.
    destruct (LruCache.run (LruCache.new N) tr) as [e M].
    cbn [LruCache.entries LruCache.maxSize] in *. subst e M.
    destruct o as [k|k v|k| |]; try done.
    unfold LruCache.step. cbn [LruCache.call snd].
    unfold LruCache.set, LruCache.evict, LruCache.inserted.
    cbn [LruCache.with_entries LruCache.entries LruCache.maxSize JsMap.has
         JsMap.get JsMap.set JsMap.size length JsMap.first_key JsMap.keys
         fmap list_fmap head fst].
    destruct (Z.gtb_spec (Z.of_nat 1) N); [|lia].
    rewrite jsmap_delete_cons. by destruct (decide (k = k)). }
  split; [done|]. intros key. unfold LruCache.has. rewrite Hempty.
  split; [|done]. rewrite lru_get_miss; [done | by rewrite Hempty].
Qed.

(** X6. In a cache reached by calls no key occurs twice, so [size] counts
    distinct keys and the listed pairs are exactly what lookups return. *)
Theorem lru_entries_are_a_function (N : Z) tr :
  let c := LruCache.run (LruCache.new N) tr in
  NoDup (LruCache.keys c) ∧
  (∀ k v, (k, v) ∈ LruCache.entries c
          ↔ JsMap.get (LruCache.entries c) k = Some v).
Proof.
  intros c.
  assert (NoDup (LruCache.keys c)) as Hwf by apply lru_run_NoDup.
  split; [done|]. unfold LruCache.keys, JsMap.keys in Hwf.
  induction (LruCache.entries c) as [|[k0 v0] e IH]; intros k v.
  - split; [by intros ?%elem_of_nil | done].
  - rewrite fmap_cons in Hwf. cbn [fst] in Hwf.
    apply NoDup_cons in Hwf as [Hk0 Hwf]. cbn [JsMap.get].
    rewrite elem_of_cons. destruct (decide (k0 = k)) as [->|Hne].
    + split; [|intros [= ->]; by left].
      intros [[= ->]|Hin]; [done|]. exfalso. apply Hk0.
      apply list_elem_of_fmap. by exists (k, v).
    + rewrite <- (IH Hwf). split; [|by right].
      intros [[= -> ->]|Hin]; done.
Qed.

End LruMore.

(** ** The rate limiter store *)

Section StoreMore.
Implicit Types (s : RateLimiterStore.t) (key : string) (now : Z).

Lemma check_result_ext s1 s2 now key :
  RateLimiterStore.entries s1 !! key = RateLimiterStore.entries s2 !! key →
  RateLimiterStore.windowMs s1 = RateLimiterStore.windowMs s2 →
  RateLimiterStore.maxRequests s1 = RateLimiterStore.maxRequests s2 →
  (RateLimiterStore.check s1 now key).1 = (RateLimiterStore.check s2 now key).1.
Proof.
  intros He HW HM. unfold RateLimiterStore.check. rewrite He, HW, HM.
  destruct (RateLimiterStore.entries s2 !! key) as [e|]; [|done].
  repeat case_bool_decide; done.
Qed.

Lemma check_state s now key :
  ∃ e, (RateLimiterStore.check s now key).2
       = RateLimiterStore.with_entries s
           (<[key := e]> (RateLimiterStore.entries s)).
Proof.
  unfold RateLimiterStore.check.
  destruct (RateLimiterStore.entries s !! key) as [e|]; [|by eexists].
  repeat case_bool_decide; by eexists.
Qed.

(** X7. Keys do not influence each other: a [check] of one key leaves the
    entry of every other key as it was, and leaves unchanged what any later
    [check] of another key answers. *)
Theorem check_keys_are_independent s now key other :
  key ≠ other →
  let s' := (RateLimiterStore.check s now key).2 in
  RateLimiterStore.entries s' !! other = RateLimiterStore.entries s !! other ∧
  (∀ later,
     (RateLimiterStore.check s' later other).1
     = (RateLimiterStore.check s later other).1).
Proof.
  intros Hne s'. destruct (check_state s now key) as [e He].
  assert (RateLimiterStore.entries s' !! other
          = RateLimiterStore.entries s !! other) as Hother.
  { subst s'. rewrite He. cbn. by apply lookup_insert_ne. }
  split; [done|]. intros later.
  apply check_result_ext; [done|subst s'; by rewrite He..].
Qed.

(** X8. With a threshold of at least 1, the [remaining] a [check] reports
    is never negative, whatever the store holds, and a denied call reports
    [remaining = 0]. *)
Theorem check_remaining_is_not_negative s now key :
  1 ≤ RateLimiterStore.maxRequests s →
  let r := (RateLimiterStore.check s now key).1 in
  0 ≤ RateLimitResult.remaining r ∧
  (RateLimitResult.isLimited r = true → RateLimitResult.remaining r = 0).
Proof.
  intros HM r. subst r. unfold RateLimiterStore.check.
  destruct (RateLimiterStore.entries s !! key) as [e|]; [|cbn; split; [lia|done]].
  repeat case_bool_decide; cbn; split; try done; lia.
Qed.

(** X9. With a window of at least 1 ms, the [resetAt] a [check] reports is
    later than the time of the call, and the entry stored for the key after
    the call carries that same [resetAt]. *)
Theorem check_reset_is_in_the_future s now key :
  1 ≤ RateLimiterStore.windowMs s →
  let '(r, s') := RateLimiterStore.check s now key in
  now < RateLimitResult.resetAt r ∧
  ∃ e, RateLimiterStore.entries s' !! key = Some e ∧
       RateLimitEntry.resetAt e = RateLimitResult.resetAt r.
Proof.
  intros HW. unfold RateLimiterStore.check.
  destruct (RateLimiterStore.entries s !! key) as [e|];
    repeat case_bool_decide; cbn; (split; [lia|]);
    eexists; (split; [apply lookup_insert_eq | done]).
Qed.

(** X10. One run of the cleanup callback at time [now] removes exactly the
    entries whose [resetAt] has passed, and no [check] made at [now] or
    later can tell whether the cleanup ran. *)
Theorem sweep_removes_only_expired s now :
  (∀ key e,
     RateLimiterStore.entries (RateLimiterStore.sweep s now) !! key = Some e
     ↔ RateLimiterStore.entries s !! key = Some e ∧
       now < RateLimitEntry.resetAt e) ∧
  (∀ key later,
     now ≤ later →
     (RateLimiterStore.check (RateLimiterStore.sweep s now) later key).1
     = (RateLimiterStore.check s later key).1).
Proof.
  assert (∀ key e,
     RateLimiterStore.entries (RateLimiterStore.sweep s now) !! key = Some e
     ↔ RateLimiterStore.entries s !! key = Some e ∧
       now < RateLimitEntry.resetAt e) as Hsweep.
  { intros key e. unfold RateLimiterStore.sweep. cbn.
    rewrite map_lookup_filter_Some. cbn. split; intros [? ?]; split; try done; lia. }
  split; [done|]. intros key later Hlater.
  unfold RateLimiterStore.check.
  change (RateLimiterStore.windowMs (RateLimiterStore.sweep s now))
    with (RateLimiterStore.windowMs s).
  change (RateLimiterStore.maxRequests (RateLimiterStore.sweep s now))
    with (RateLimiterStore.maxRequests s).
  destruct (RateLimiterStore.entries (RateLimiterStore.sweep s now) !! key)
    as [e|] eqn:Hs.
  - apply Hsweep in Hs as [-> _]. repeat case_bool_decide; done.
  - destruct (RateLimiterStore.entries s !! key) as [e|] eqn:He; [|done].
    assert (¬ now < RateLimitEntry.resetAt e) as Hexp.
    { intros Hlt. assert (RateLimiterStore.entries
        (RateLimiterStore.sweep s now) !! key = Some e) as Hin
        by (by apply Hsweep). congruence. }
    rewrite bool_decide_eq_true_2 by lia. done.
Qed.

End StoreMore.

Lemma check_keys_are_independent_witness :
  let s := RateLimiterStore.new 60000 1 in
  "10.0.0.1" ≠ "10.0.0.2" ∧
  let s' := (RateLimiterStore.check s 5 "10.0.0.1").2 in
  RateLimiterStore.entries s' !! "10.0.0.2"
  = RateLimiterStore.entries s !! "10.0.0.2" ∧
  (∀ later,
     (RateLimiterStore.check s' later "10.0.0.2").1
     = (RateLimiterStore.check s later "10.0.0.2").1).
Proof.
  intros s. assert ("10.0.0.1" ≠ "10.0.0.2") as H1 by discriminate.
  split; [exact H1|].
  exact (check_keys_are_independent s 5 "10.0.0.1" "10.0.0.2" H1).
Defined.

Lemma check_remaining_is_not_negative_witness :
  let s := (RateLimiterStore.check (RateLimiterStore.new 60000 1) 5 "k").2 in
  1 ≤ RateLimiterStore.maxRequests s ∧
  let r := (RateLimiterStore.check s 6 "k").1 in
  0 ≤ RateLimitResult.remaining r ∧
  (RateLimitResult.isLimited r = true → RateLimitResult.remaining r = 0).
Proof.
  intros s. assert (1 ≤ RateLimiterStore.maxRequests s) as H1 by (vm_compute; done).
  split; [exact H1|].
  exact (check_remaining_is_not_negative s 6 "k" H1).
Defined.

Lemma check_reset_is_in_the_future_witness :
  let s := RateLimiterStore.new 100 1 in
  1 ≤ RateLimiterStore.windowMs s ∧
  let '(r, s') := RateLimiterStore.check s 5 "k" in
  5 < RateLimitResult.resetAt r ∧
  ∃ e, RateLimiterStore.entries s' !! "k" = Some e ∧
       RateLimitEntry.resetAt e = RateLimitResult.resetAt r.
Proof.
  intros s. assert (1 ≤ RateLimiterStore.windowMs s) as H1 by (vm_compute; done).
  split; [exact H1|].
  exact (check_reset_is_in_the_future s 5 "k" H1).
Defined.

Lemma lru_get_returns_latest_set_witness :
  let tr := [LruCache.OSet "A" 1%nat; LruCache.OSet "B" 5%nat;
             LruCache.OSet "A" 2%nat] in
  (LruCache.get (LruCache.run (LruCache.new 2) tr) "A").1 = Some 2%nat ∧
  LruHistory.last_set tr "A" = Some 2%nat.
Proof.
  intros tr.
  assert ((LruCache.get (LruCache.run (LruCache.new 2) tr) "A").1 = Some 2%nat)
    as H1 by (vm_compute; reflexivity).
  split; [exact H1|].
  exact (lru_get_returns_latest_set 2 tr "A" 2%nat H1).
Defined.

Lemma lru_set_then_get_witness :
  let c := LruCache.new (T:=nat) 1 in
  1 ≤ LruCache.maxSize c ∧
  (LruCache.get (LruCache.set c "A" 7%nat) "A").1 = Some 7%nat.
Proof.
  intros c. assert (1 ≤ LruCache.maxSize c) as H1 by (cbn; lia).
  split; [exact H1|]. exact (lru_set_then_get c "A" 7%nat H1).
Defined.

Lemma lru_set_without_eviction_witness :
  let tr := [LruCache.OSet "A" 1%nat; LruCache.OSet "B" 5%nat] in
  0 ≤ 2 ∧
  let c := LruCache.run (LruCache.new 2) tr in
  (LruCache.has c "A" = true ∨ Z.of_nat (LruCache.size c) < 2) ∧
  LruCache.size (LruCache.set c "A" 9%nat)
  = (if LruCache.has c "A" then LruCache.size c else S (LruCache.size c)) ∧
  (∀ x, JsMap.get (LruCache.entries (LruCache.set c "A" 9%nat)) x
        = if decide ("A" = x) then Some 9%nat
          else JsMap.get (LruCache.entries c) x).
Proof.
  intros tr. assert (0 ≤ 2) as H1 by lia. split; [exact H1|]. intros c.
  assert (LruCache.has c "A" = true ∨ Z.of_nat (LruCache.size c) < 2) as H2
    by (left; vm_compute; reflexivity).
  split; [exact H2|].
  exact (lru_set_without_eviction 2 tr "A" 9%nat H1 H2).
Defined.

Lemma lru_nonpositive_capacity_stores_nothing_witness :
  let tr := [LruCache.OSet "A" 1%nat; LruCache.OGet "A"] in
  -1 ≤ 0 ∧
  let c := LruCache.run (LruCache.new (-1)) tr in
  LruCache.entries c = [] ∧
  (∀ key, (LruCache.get c key).1 = None ∧ LruCache.has c key = false).
Proof.
  intros tr. assert (-1 ≤ 0) as H1 by lia. split; [exact H1|].
  exact (lru_nonpositive_capacity_stores_nothing (-1) tr H1).
Defined.

(** ** The rate limiter middleware *)

Lemma header_after_json_status (b : Http.Body) (code : Z)
    (res : Http.Response) (name : string) :
  Http.header (Http.json b (Http.status code res)) name = Http.header res name.
Proof. done. Qed.

Lemma header_setHeader (name name' : string) (v : Http.HeaderValue)
    (res : Http.Response) :
  Http.header (Http.setHeader name v res) name' =
  if decide (name = name') then Some v else Http.header res name'.
Proof. unfold Http.header, Http.setHeader. cbn. apply jsmap_get_set. Qed.

(** X11. Every invocation of the middleware stores what [check] stores,
    sets [X-RateLimit-Limit] to the configured threshold,
    [X-RateLimit-Remaining] to the [remaining] of the answer and
    [X-RateLimit-Reset] to the [resetAt] of the answer in whole seconds,
    rounded up.  It calls [next] exactly when the answer is not limited, and
    then leaves status, body and any [Retry-After] of the response as they
    were. *)
Theorem rate_limiter_headers_and_decision
    (options : RateLimiterOptions.t) (st : RateLimiterStore.t)
    (ip : option string) (now later : Z) (res : Http.Response) :
  let key := default "unknown" ip in
  let result := (RateLimiterStore.check st now key).1 in
  let out := RateLimiter.rateLimiterMiddleware options st ip now later res in
  RateLimiter.store out = (RateLimiterStore.check st now key).2 ∧
  RateLimiter.nextCalled out = negb (RateLimitResult.isLimited result) ∧
  Http.header (RateLimiter.response out) "X-RateLimit-Limit"
  = Some (Http.HNum (RateLimiterOptions.maxRequests options)) ∧
  Http.header (RateLimiter.response out) "X-RateLimit-Remaining"
  = Some (Http.HNum (RateLimitResult.remaining result)) ∧
  (∃ sec, Http.header (RateLimiter.response out) "X-RateLimit-Reset"
          = Some (Http.HNum sec) ∧
          1000 * (sec - 1) < RateLimitResult.resetAt result ≤ 1000 * sec) ∧
  (if RateLimitResult.isLimited result
   then Http.statusCode (RateLimiter.response out) = 429
   else Http.statusCode (RateLimiter.response out) = Http.statusCode res ∧
        Http.body (RateLimiter.response out) = Http.body res ∧
        Http.header (RateLimiter.response out) "Retry-After"
        = Http.header res "Retry-After").
Proof.
  intros key result out. subst out result.
  unfold RateLimiter.rateLimiterMiddleware. fold key.
  destruct (RateLimiterStore.check st now key) as [r st']. cbn [fst snd].
  pose proof (ceil_div_1000_spec (RateLimitResult.resetAt r)) as Hceil.
  destruct (RateLimitResult.isLimited r);
    cbn [RateLimiter.response RateLimiter.nextCalled RateLimiter.store negb];
    rewrite ?header_after_json_status, !header_setHeader;
    split_and!; try done.
  - eexists. split; [reflexivity | lia].
  - eexists. split; [reflexivity | lia].
Qed.

(** ** The in-memory repository *)

Section RepoMore.
Implicit Types (r : InMemoryLinkRepository.t) (link : Link.t).
Implicit Types (id shortCode : string).

(** X12. [save] returns the link it was given; afterwards [findById] of
    that link's id returns it (a link saved earlier under the same id is
    replaced), and [findById] of any other id answers as before. *)
Theorem repo_save_then_findById r link id :
  (InMemoryLinkRepository.save r link).1 = link ∧
  InMemoryLinkRepository.findById (InMemoryLinkRepository.save r link).2 id
  = if decide (Link.id link = id) then Some link
    else InMemoryLinkRepository.findById r id.
Proof.
  split; [done|]. unfold InMemoryLinkRepository.findById. cbn.
  apply jsmap_get_set.
Qed.

(** X13. [findByShortCode] answers with a stored link that carries the
    short code, and answers [undefined] exactly when no stored link carries
    it. *)
Theorem repo_findByShortCode_sound_and_complete r shortCode :
  (∀ link,
     InMemoryLinkRepository.findByShortCode r shortCode = Some link →
     link ∈ InMemoryLinkRepository.findAll r ∧ Link.shortCode link = shortCode) ∧
  (InMemoryLinkRepository.findByShortCode r shortCode = None
   ↔ ∀ link, link ∈ InMemoryLinkRepository.findAll r →
             Link.shortCode link ≠ shortCode).
Proof.
  unfold InMemoryLinkRepository.findByShortCode, InMemoryLinkRepository.findAll.
  split.
  - intros link ([i l] & Hfind & ->)%fmap_Some.
    apply list_find_Some in Hfind as (Hi & Hl & _).
    split; [|done]. by eapply list_elem_of_lookup_2.
  - rewrite fmap_None, list_find_None, Forall_forall. done.
Qed.

(** X14. Saving a link under an id that is not stored yet appends it to
    [findAll].  A short code that was already found keeps leading to the
    link found before, also when the new link carries the same short code;
    a short code that was not found leads to the new link when it is the
    new link's short code, and stays not found otherwise. *)
Theorem repo_save_new_id r link shortCode :
  InMemoryLinkRepository.findById r (Link.id link) = None →
  let r' := (InMemoryLinkRepository.save r link).2 in
  InMemoryLinkRepository.findAll r'
  = InMemoryLinkRepository.findAll r ++ [link] ∧
  InMemoryLinkRepository.findByShortCode r' shortCode
  = match InMemoryLinkRepository.findByShortCode r shortCode with
    | Some earlier => Some earlier
    | None => if decide (Link.shortCode link = shortCode) then Some link
              else None
    end.
Proof.
  intros Hnew r'. subst r'.
  unfold InMemoryLinkRepository.findById in Hnew.
  apply jsmap_get_None in Hnew.
  assert (InMemoryLinkRepository.findAll (InMemoryLinkRepository.save r link).2
          = InMemoryLinkRepository.findAll r ++ [link]) as Hall.
  { unfold InMemoryLinkRepository.findAll, InMemoryLinkRepository.save.
    cbn [snd InMemoryLinkRepository.links].
    rewrite (jsmap_set_absent _ _ _ Hnew). unfold JsMap.values.
    by rewrite fmap_app. }
  split; [done|].
  unfold InMemoryLinkRepository.findByShortCode.
  change (JsMap.values (InMemoryLinkRepository.links
            (InMemoryLinkRepository.save r link).2))
    with (InMemoryLinkRepository.findAll (InMemoryLinkRepository.save r link).2).
  change (JsMap.values (InMemoryLinkRepository.links r))
    with (InMemoryLinkRepository.findAll r).
  rewrite Hall.
  destruct (list_find (λ l, Link.shortCode l = shortCode)
              (InMemoryLinkRepository.findAll r)) as [[i l]|] eqn:Hfind.
  - by rewrite (list_find_app_l _ _ _ _ _ Hfind).
  - rewrite (list_find_app_r _ _ _ Hfind). cbn.
    by destruct (decide (Link.shortCode link = shortCode)).
Qed.

End RepoMore.

Lemma repo_save_new_id_witness :
  let link := Link.Build "id00001" "https://example.com" "code001" 10 in
  let clash := Link.Build "id00002" "https://example.org" "code001" 20 in
  let r := (InMemoryLinkRepository.save InMemoryLinkRepository.new link).2 in
  InMemoryLinkRepository.findById r (Link.id clash) = None ∧
  let r' := (InMemoryLinkRepository.save r clash).2 in
  InMemoryLinkRepository.findAll r'
  = InMemoryLinkRepository.findAll r ++ [clash] ∧
  InMemoryLinkRepository.findByShortCode r' "code001"
  = match InMemoryLinkRepository.findByShortCode r "code001" with
    | Some earlier => Some earlier
    | None => if decide (Link.shortCode clash = "code001") then Some clash
              else None
    end.
Proof.
  intros link clash r.
  assert (InMemoryLinkRepository.findById r (Link.id clash) = None) as H1
    by (vm_compute; reflexivity).
  split; [exact H1|].
  exact (repo_save_new_id r clash "code001" H1).
Defined.

(** ** The link service and its controller *)

Lemma substring_length_le (n : nat) (str : string) :
  (String.length (String.substring 0 n str) ≤ n)%nat.
Proof.
  revert str. induction n as [|n IH]; intros [|a str]; cbn; try lia.
  specialize (IH str). lia.
Qed.

Section ServiceMore.
Context (urlParses : string → bool).
Context (randomBytes : nat → nat → list Byte.byte).
Context (base64url : list Byte.byte → string).
Context (encodeUrl : string → string).

Local Abbreviation shortenUrl :=
  (LinkService.shortenUrl urlParses randomBytes base64url).
Local Abbreviation shortIdOfDraw :=
  (LinkService.shortIdOfDraw randomBytes base64url).
Local Abbreviation createLink :=
  (LinkService.createLink urlParses randomBytes base64url).
Local Abbreviation exec := (LinkService.exec urlParses randomBytes base64url).
Local Abbreviation reachable :=
  (LinkService.reachable urlParses randomBytes base64url).
Implicit Types (s : LinkService.State) (u url shortCode : string).
Implicit Types (link : Link.t) (now : Z).

Ltac fields :=
  cbn [LinkService.shortCodeCache LinkService.urlCache
       LinkService.linkRepository LinkService.draws LinkService.repoCalls
       fst snd].

(** Every cached link sits under its own [originalUrl], respectively its
    own [shortCode]. *)
Lemma exec_keys_consistent s (call : LinkService.Call) :
  (∀ k l, LinkService.cached (LinkService.urlCache s) k = Some l →
          Link.originalUrl l = k) →
  (∀ k l, LinkService.cached (LinkService.shortCodeCache s) k = Some l →
          Link.shortCode l = k) →
  (∀ k l, LinkService.cached (LinkService.urlCache (exec s call)) k = Some l →
          Link.originalUrl l = k) ∧
  (∀ k l, LinkService.cached (LinkService.shortCodeCache (exec s call)) k
          = Some l → Link.shortCode l = k).
Proof.
  intros Hu Hc. unfold LinkService.exec, LinkService.cached in *.
  destruct call as [now u|shortCode]; cbn [LinkService.perform].
  - destruct (urlParses u) eqn:E;
      [|by rewrite (shortenUrl_invalid _ _ _ _ _ _ E)].
    destruct (LinkService.cached (LinkService.urlCache s) u) as [l0|] eqn:H0.
    + rewrite (shortenUrl_hit _ _ _ _ _ _ _ E H0). fields.
      split; [|done]. intros k l. rewrite lru_get_keeps_lookup. apply Hu.
    + rewrite (shortenUrl_miss _ _ _ _ _ _ E H0). fields. cbn [Link.shortCode].
      split; intros k l [[-> ->]|Hold]%lru_set_lookup_inv; try done.
      * by apply Hu.
      * by apply Hc.
  - destruct (LinkService.cached (LinkService.shortCodeCache s) shortCode)
      as [l0|] eqn:H0.
    + rewrite (resolve_hit _ _ _ H0). fields.
      split; [done|]. intros k l. rewrite lru_get_keeps_lookup. apply Hc.
    + destruct (InMemoryLinkRepository.findByShortCode
                  (LinkService.linkRepository s) shortCode) as [l0|] eqn:Hf.
      * rewrite (resolve_found _ _ _ H0 Hf). fields.
        split; intros k l [[-> ->]|Hold]%lru_set_lookup_inv; try done.
        -- by apply Hu.
        -- by eapply findByShortCode_shortCode.
        -- by apply Hc.
      * by rewrite (resolve_not_found _ _ H0 Hf).
Qed.

Lemma reachable_keys_consistent s :
  reachable s →
  (∀ k l, LinkService.cached (LinkService.urlCache s) k = Some l →
          Link.originalUrl l = k) ∧
  (∀ k l, LinkService.cached (LinkService.shortCodeCache s) k = Some l →
          Link.shortCode l = k).
Proof.
  intros [calls ->]. induction calls as [|call calls IH] using rev_ind.
  - by split.
  - rewrite foldl_app. cbn [foldl]. destruct IH as [Hu Hc].
    by apply exec_keys_consistent.
Qed.

(** X15. On a service reached from [new LinkService(...)] by any calls,
    [shortenUrl(u)] only ever returns a link whose [originalUrl] is [u], and
    [resolveShortCode(c)] only ever returns a link whose [shortCode] is [c]:
    a cache hit never hands out another request's link. *)
Theorem service_returns_what_was_asked_for s :
  reachable s →
  (∀ now u link s',
     shortenUrl now u s = (LinkService.Ok link, s') →
     Link.originalUrl link = u) ∧
  (∀ shortCode link s',
     LinkService.resolveShortCode shortCode s = (LinkService.Ok link, s') →
     Link.shortCode link = shortCode).
Proof.
  intros [Hu Hc]%reachable_keys_consistent. split.
  - intros now u link s' Hrun.
    destruct (urlParses u) eqn:E;
      [|by rewrite (shortenUrl_invalid _ _ _ _ _ _ E) in Hrun].
    destruct (LinkService.cached (LinkService.urlCache s) u) as [l0|] eqn:H0.
    + rewrite (shortenUrl_hit _ _ _ _ _ _ _ E H0) in Hrun.
      injection Hrun as <- _. by apply Hu.
    + rewrite (shortenUrl_miss _ _ _ _ _ _ E H0) in Hrun.
      by injection Hrun as <- _.
  - intros shortCode link s' Hrun.
    destruct (LinkService.cached (LinkService.shortCodeCache s) shortCode)
      as [l0|] eqn:H0.
    + rewrite (resolve_hit _ _ _ H0) in Hrun. injection Hrun as <- _.
      by apply Hc.
    + destruct (InMemoryLinkRepository.findByShortCode
                  (LinkService.linkRepository s) shortCode) as [l0|] eqn:Hf.
      * rewrite (resolve_found _ _ _ H0 Hf) in Hrun. injection Hrun as <- _.
        by eapply findByShortCode_shortCode.
      * by rewrite (resolve_not_found _ _ H0 Hf) in Hrun.
Qed.

(** X16. When the URL parses and is not in the URL cache, [shortenUrl]
    makes a new link from the next two random draws and the current time,
    saves it with one repository call, and a [resolveShortCode] of its short
    code right after returns that same link from the cache, without a
    repository call. *)
Theorem create_then_resolve s u now :
  LinkService.caps_ok s → urlParses u = true →
  LinkService.cached (LinkService.urlCache s) u = None →
  let link := Link.Build (shortIdOfDraw (LinkService.draws s)) u
                (shortIdOfDraw (S (LinkService.draws s))) now in
  ∃ s1 s2,
    shortenUrl now u s = (LinkService.Ok link, s1) ∧
    LinkService.draws s1 = S (S (LinkService.draws s)) ∧
    LinkService.repoCalls s1 = LinkService.CallSave link :: LinkService.repoCalls s ∧
    InMemoryLinkRepository.findById (LinkService.linkRepository s1)
      (Link.id link) = Some link ∧
    LinkService.resolveShortCode (Link.shortCode link) s1
    = (LinkService.Ok link, s2) ∧
    LinkService.repoCalls s2 = LinkService.repoCalls s1 ∧
    LinkService.linkRepository s2 = LinkService.linkRepository s1.
Proof.
  intros Hok E H0 link. destruct (caps_ok_room s Hok) as [Hsc Huc].
  pose proof (shortenUrl_miss urlParses randomBytes base64url now u s E H0)
    as Hrun. cbv zeta in Hrun. fold link in Hrun.
  eexists _, _. split; [exact Hrun|]. fields. split_and!.
  - done.
  - done.
  - unfold InMemoryLinkRepository.findById. cbn [InMemoryLinkRepository.links].
    rewrite jsmap_get_set. by destruct (decide _).
  - apply resolve_hit. fields. unfold LinkService.cached.
    by apply lru_set_lookup_same.
  - done.
  - done.
Qed.

(** X17. [resolveShortCode] never writes to the repository and never draws
    a random identifier.  On a cache hit it returns the cached link, makes
    no repository call and leaves the URL cache alone; on a cache miss it
    makes exactly one [findByShortCode] call. *)
Theorem resolve_reads_only s shortCode :
  let '(r, s') := LinkService.resolveShortCode shortCode s in
  LinkService.linkRepository s' = LinkService.linkRepository s ∧
  LinkService.draws s' = LinkService.draws s ∧
  match LinkService.cached (LinkService.shortCodeCache s) shortCode with
  | Some link =>
      r = LinkService.Ok link ∧
      LinkService.repoCalls s' = LinkService.repoCalls s ∧
      LinkService.urlCache s' = LinkService.urlCache s
  | None =>
      LinkService.repoCalls s'
      = LinkService.CallFindByShortCode shortCode :: LinkService.repoCalls s
  end.
Proof.
  destruct (LinkService.cached (LinkService.shortCodeCache s) shortCode)
    as [l0|] eqn:H0.
  - by rewrite (resolve_hit _ _ _ H0).
  - destruct (InMemoryLinkRepository.findByShortCode
                (LinkService.linkRepository s) shortCode) as [l0|] eqn:Hf.
    + by rewrite (resolve_found _ _ _ H0 Hf).
    + by rewrite (resolve_not_found _ _ H0 Hf).
Qed.

(** X18. [generateShortId] returns at most [SHORT_ID_LENGTH] = 7 characters
    and advances the random source by one draw, touching nothing else. *)
Theorem generateShortId_is_short s :
  ∃ token s',
    LinkService.generateShortId randomBytes base64url s
    = (LinkService.Ok token, s') ∧
    (String.length token ≤ 7)%nat ∧
    LinkService.draws s' = S (LinkService.draws s) ∧
    LinkService.shortCodeCache s' = LinkService.shortCodeCache s ∧
    LinkService.urlCache s' = LinkService.urlCache s ∧
    LinkService.linkRepository s' = LinkService.linkRepository s ∧
    LinkService.repoCalls s' = LinkService.repoCalls s.
Proof.
  eexists _, _. split; [reflexivity|]. fields. split_and!; try done.
  apply substring_length_le.
Qed.

(** X19. The controller, for a URL that parses and is not cached: it
    answers 201 with the new link, whose [shortUrl] is the base URL followed
    by [/api/links/] and the short code; a redirect request for that short
    code right after answers 301 with [Location] set to the submitted URL
    as Express encodes it ([encodeUrl]), hence to the submitted URL itself
    when the encoding leaves it as it is. *)
Theorem create_then_redirect s u now (baseUrl : string) :
  LinkService.caps_ok s → urlParses u = true →
  LinkService.cached (LinkService.urlCache s) u = None →
  ∃ res s1 data res2 s2,
    LinkService.respond (createLink now baseUrl u) s = (res, s1) ∧
    Http.statusCode res = 201 ∧
    Http.body res = Http.DataEnvelope data ∧
    Http.lr_originalUrl data = u ∧
    Http.lr_createdAt data = now ∧
    Http.lr_shortUrl data = baseUrl +:+ "/api/links/" +:+ Http.lr_shortCode data ∧
    LinkService.respond
      (LinkService.redirectLink encodeUrl (Http.lr_shortCode data)) s1
    = (res2, s2) ∧
    Http.statusCode res2 = 301 ∧
    Http.header res2 "Location" = Some (Http.HStr (encodeUrl u)) ∧
    (encodeUrl u = u → Http.header res2 "Location" = Some (Http.HStr u)).
Proof.
  intros Hok E H0. destruct (caps_ok_room s Hok) as [Hsc Huc].
  pose proof (shortenUrl_miss urlParses randomBytes base64url now u s E H0)
    as Hrun. cbv zeta in Hrun. cbn [Link.shortCode Link.id] in Hrun.
  match type of Hrun with _ = (LinkService.Ok ?l, ?s1) =>
    assert (LinkService.cached (LinkService.shortCodeCache s1)
              (Link.shortCode l) = Some l) as Hc
      by (fields; by apply lru_set_lookup_same);
    pose proof (resolve_hit _ _ _ Hc) as Hres;
    cbn [Link.shortCode] in Hres
  end.
  eexists _, _, _, _, _.
  unfold LinkService.respond, LinkService.createLink, LinkService.redirectLink,
    LinkService.bind, LinkService.ret.
  rewrite Hrun. cbn [Link.originalUrl Link.shortCode Link.id Link.createdAt].
  split; [reflexivity|]. split; [reflexivity|]. split; [reflexivity|].
  cbn [Http.lr_shortCode Http.lr_originalUrl Http.lr_createdAt Http.lr_shortUrl].
  rewrite Hres. cbn [Link.originalUrl].
  split_and!; try reflexivity.
  intros Heq. unfold Http.header, Http.redirect, Http.setHeader. cbn.
  by rewrite Heq.
Qed.

End ServiceMore.

Lemma resolve_reads_only_repo (s : LinkService.State) (shortCode : string) :
  LinkService.linkRepository (LinkService.resolveShortCode shortCode s).2
  = LinkService.linkRepository s.
Proof.
  destruct (LinkService.cached (LinkService.shortCodeCache s) shortCode)
    as [l0|] eqn:H0.
  - by rewrite (resolve_hit _ _ _ H0).
  - destruct (InMemoryLinkRepository.findByShortCode
                (LinkService.linkRepository s) shortCode) as [l0|] eqn:Hf.
    + by rewrite (resolve_found _ _ _ H0 Hf).
    + by rewrite (resolve_not_found _ _ H0 Hf).
Qed.

(** ** The middleware chain of the application *)

Section AppFacts.
Context (urlParses : string → bool).
Context (randomBytes : nat → nat → list Byte.byte).
Context (base64url : list Byte.byte → string).
Context (encodeUrl : string → string).

Local Abbreviation shortenUrl :=
  (LinkService.shortenUrl urlParses randomBytes base64url).
Local Abbreviation handle :=
  (App.handle urlParses randomBytes base64url encodeUrl).

Lemma route_createLink now (baseUrl url : string) (res : Http.Response)
    (sv : LinkService.State) :
  let out := App.route (App.createLink urlParses randomBytes base64url
                          now baseUrl url) res sv in
  out.2 = (shortenUrl now url sv).2 ∧
  ∀ name, Http.header out.1 name = Http.header res name.
Proof.
  unfold App.route, App.createLink, LinkService.bind, LinkService.ret.
  destruct (shortenUrl now url sv) as [[link|e] sv']; cbn [fst snd].
  - done.
  - split; [done|]. intros name. by destruct e.
Qed.

(** X20. When the global limiter denies a request, the chain ends there:
    the answer is 429 with the global limiter's message and code, the
    request has been counted by the global limiter only, and neither the
    route limiter nor the link service is touched. *)
Theorem app_global_denial_ends_the_chain (clk : App.Clock)
    (req : App.Request) (a : App.State) :
  let key := default "unknown" (App.ipOf req) in
  let g := RateLimiterStore.check (App.globalStore a) (App.globalNow clk) key in
  RateLimitResult.isLimited g.1 = true →
  let '(res, a') := handle clk req a in
  Http.statusCode res = 429 ∧
  Http.body res
  = Http.ErrorEnvelope "Too many requests, please try again later"
      "RATE_LIMIT_EXCEEDED" ∧
  App.globalStore a' = g.2 ∧
  App.createLinkStore a' = App.createLinkStore a ∧
  App.service a' = App.service a.
Proof.
  intros key g Hlim. subst g. unfold App.handle,
    RateLimiter.rateLimiterMiddleware. fold key.
  destruct (RateLimiterStore.check (App.globalStore a) (App.globalNow clk) key)
    as [rg sg]. cbn [fst snd] in *. rewrite Hlim.
  cbn [RateLimiter.nextCalled RateLimiter.response RateLimiter.store].
  done.
Qed.

(** X21. A [POST /api/links] that passes the global limiter is counted by
    the route limiter, and the [X-RateLimit-Limit] and
    [X-RateLimit-Remaining] headers of the answer are the route limiter's
    (limit 10), which replace the global limiter's.  When the route limiter
    denies, the answer is 429 with its own message and code and the link
    service is not touched; otherwise the link service is left as
    [shortenUrl] leaves it. *)
Theorem app_post_reports_route_limiter (clk : App.Clock)
    (ip : option string) (baseUrl url : string) (a : App.State) :
  let key := default "unknown" ip in
  let g := RateLimiterStore.check (App.globalStore a) (App.globalNow clk) key in
  let c := RateLimiterStore.check (App.createLinkStore a) (App.routeNow clk) key in
  RateLimitResult.isLimited g.1 = false →
  let '(res, a') := handle clk (App.PostLink ip baseUrl url) a in
  App.globalStore a' = g.2 ∧
  App.createLinkStore a' = c.2 ∧
  Http.header res "X-RateLimit-Limit" = Some (Http.HNum 10) ∧
  Http.header res "X-RateLimit-Remaining"
  = Some (Http.HNum (RateLimitResult.remaining c.1)) ∧
  if RateLimitResult.isLimited c.1
  then Http.statusCode res = 429 ∧
       Http.body res
       = Http.ErrorEnvelope
           "Too many link creation requests, please try again later"
           "CREATION_RATE_LIMIT_EXCEEDED" ∧
       App.service a' = App.service a
  else App.service a' = (shortenUrl (App.created clk) url (App.service a)).2.
Proof.
  intros key g c Hok. subst g c. unfold App.handle,
    RateLimiter.rateLimiterMiddleware. cbn [App.ipOf]. fold key.
  destruct (RateLimiterStore.check (App.globalStore a) (App.globalNow clk) key)
    as [rg sg].
  destruct (RateLimiterStore.check (App.createLinkStore a) (App.routeNow clk) key)
    as [rc sc]. cbn [fst snd] in *. rewrite Hok.
  cbn [RateLimiter.nextCalled RateLimiter.response RateLimiter.store].
  destruct (RateLimitResult.isLimited rc);
    cbn [RateLimiter.nextCalled RateLimiter.response RateLimiter.store].
  - cbn [App.globalStore App.createLinkStore App.service].
    rewrite !header_after_json_status, !header_setHeader.
    split_and!; done.
  - match goal with
    | |- context [App.route ?h ?r ?sv] =>
        pose proof (route_createLink (App.created clk) baseUrl url r sv) as [Hsv Hhd];
        destruct (App.route h r sv) as [res sv']
    end.
    cbn [fst snd] in Hsv, Hhd.
    cbn [App.globalStore App.createLinkStore App.service].
    rewrite !Hhd, !header_setHeader. split_and!; done.
Qed.

(** X22. A [GET /api/links/:shortCode] never reaches the route limiter: its
    store is left as it was, whatever the global limiter decides; the
    [X-RateLimit-Limit] header of the answer is the global limit 100; and
    the repository is not written. *)
Theorem app_get_skips_route_limiter (clk : App.Clock)
    (ip : option string) (shortCode : string) (a : App.State) :
  let '(res, a') := handle clk (App.GetLink ip shortCode) a in
  App.createLinkStore a' = App.createLinkStore a ∧
  Http.header res "X-RateLimit-Limit" = Some (Http.HNum 100) ∧
  LinkService.linkRepository (App.service a')
  = LinkService.linkRepository (App.service a).
Proof.
  unfold App.handle, RateLimiter.rateLimiterMiddleware. cbn [App.ipOf].
  destruct (RateLimiterStore.check (App.globalStore a) (App.globalNow clk) _)
    as [rg sg].
  destruct (RateLimitResult.isLimited rg);
    cbn [RateLimiter.nextCalled RateLimiter.response RateLimiter.store].
  - rewrite !header_after_json_status, !header_setHeader. done.
  - unfold App.route, App.redirectLink, LinkService.bind, LinkService.ret.
    pose proof (resolve_reads_only_repo (App.service a) shortCode) as Hrepo.
    destruct (LinkService.resolveShortCode shortCode (App.service a))
      as [[link|e] sv']; cbn [fst snd] in *.
    + cbn [App.createLinkStore App.service]. unfold Http.redirect.
      rewrite !header_setHeader. cbn [Http.status]. split_and!; try done.
    + cbn [App.createLinkStore App.service]. split_and!; try done.
      destruct e; cbn [Http.errorHandler];
        rewrite header_after_json_status, !header_setHeader; done.
Qed.

End AppFacts.

Lemma service_returns_what_was_asked_for_witness :
  let s := Sample.exec LinkService.new
             (LinkService.Create 1700000000000 "https://example.com") in
  LinkService.reachable Sample.urlParses Sample.randomBytes Sample.base64url s ∧
  (∀ now u link s',
     Sample.shortenUrl now u s = (LinkService.Ok link, s') →
     Link.originalUrl link = u) ∧
  (∀ shortCode link s',
     LinkService.resolveShortCode shortCode s = (LinkService.Ok link, s') →
     Link.shortCode link = shortCode).
Proof.
  intros s.
  assert (LinkService.reachable Sample.urlParses Sample.randomBytes
            Sample.base64url s) as H1.
  { exists [LinkService.Create 1700000000000 "https://example.com"].
    reflexivity. }
  split; [exact H1|].
  exact (service_returns_what_was_asked_for Sample.urlParses
           Sample.randomBytes Sample.base64url s H1).
Defined.

Lemma create_then_resolve_witness :
  let s := LinkService.new in
  let u := "https://example.com" in
  let now := 1700000000000 in
  LinkService.caps_ok s ∧ Sample.urlParses u = true ∧
  LinkService.cached (LinkService.urlCache s) u = None ∧
  let link := Link.Build
                (LinkService.shortIdOfDraw Sample.randomBytes Sample.base64url
                   (LinkService.draws s)) u
                (LinkService.shortIdOfDraw Sample.randomBytes Sample.base64url
                   (S (LinkService.draws s))) now in
  ∃ s1 s2,
    Sample.shortenUrl now u s = (LinkService.Ok link, s1) ∧
    LinkService.draws s1 = S (S (LinkService.draws s)) ∧
    LinkService.repoCalls s1 = LinkService.CallSave link :: LinkService.repoCalls s ∧
    InMemoryLinkRepository.findById (LinkService.linkRepository s1)
      (Link.id link) = Some link ∧
    LinkService.resolveShortCode (Link.shortCode link) s1
    = (LinkService.Ok link, s2) ∧
    LinkService.repoCalls s2 = LinkService.repoCalls s1 ∧
    LinkService.linkRepository s2 = LinkService.linkRepository s1.
Proof.
  intros s u now.
  assert (LinkService.caps_ok s) as H1 by (split; reflexivity).
  assert (Sample.urlParses u = true) as H2 by reflexivity.
  assert (LinkService.cached (LinkService.urlCache s) u = None) as H3
    by reflexivity.
  split; [exact H1|]. split; [exact H2|]. split; [exact H3|].
  exact (create_then_resolve Sample.urlParses Sample.randomBytes
           Sample.base64url s u now H1 H2 H3).
Defined.

Lemma create_then_redirect_witness :
  let s := LinkService.new in
  let u := "https://example.com" in
  let now := 1700000000000 in
  let baseUrl := "http://localhost:3000" in
  LinkService.caps_ok s ∧ Sample.urlParses u = true ∧
  LinkService.cached (LinkService.urlCache s) u = None ∧
  ∃ res s1 data res2 s2,
    LinkService.respond (Sample.createLink now baseUrl u) s = (res, s1) ∧
    Http.statusCode res = 201 ∧
    Http.body res = Http.DataEnvelope data ∧
    Http.lr_originalUrl data = u ∧
    Http.lr_createdAt data = now ∧
    Http.lr_shortUrl data = baseUrl +:+ "/api/links/" +:+ Http.lr_shortCode data ∧
    LinkService.respond
      (LinkService.redirectLink Sample.encodeUrl (Http.lr_shortCode data)) s1
    = (res2, s2) ∧
    Http.statusCode res2 = 301 ∧
    Http.header res2 "Location" = Some (Http.HStr (Sample.encodeUrl u)) ∧
    (Sample.encodeUrl u = u →
     Http.header res2 "Location" = Some (Http.HStr u)).
Proof.
  intros s u now baseUrl.
  assert (LinkService.caps_ok s) as H1 by (split; reflexivity).
  assert (Sample.urlParses u = true) as H2 by reflexivity.
  assert (LinkService.cached (LinkService.urlCache s) u = None) as H3
    by reflexivity.
  split; [exact H1|]. split; [exact H2|]. split; [exact H3|].
  exact (create_then_redirect Sample.urlParses Sample.randomBytes
           Sample.base64url Sample.encodeUrl s u now baseUrl H1 H2 H3).
Defined.

Lemma app_global_denial_ends_the_chain_witness :
  let a := App.Build
             (RateLimiterStore.Build
                {[ "10.0.0.1" := RateLimitEntry.Build 100 60000 ]} 60000 100 true)
             (RateLimiter.createStore RateLimiter.createLinkOptions)
             LinkService.new in
  let clk := {| App.globalNow := 59000; App.globalLater := 59000;
                App.routeNow := 59000; App.routeLater := 59000;
                App.created := 59000 |} in
  let req := App.PostLink (Some "10.0.0.1") "http://localhost:3000"
               "https://example.com" in
  let key := default "unknown" (App.ipOf req) in
  let g := RateLimiterStore.check (App.globalStore a) (App.globalNow clk) key in
  RateLimitResult.isLimited g.1 = true ∧
  let '(res, a') :=
    App.handle Sample.urlParses Sample.randomBytes Sample.base64url
      Sample.encodeUrl clk req a in
  Http.statusCode res = 429 ∧
  Http.body res
  = Http.ErrorEnvelope "Too many requests, please try again later"
      "RATE_LIMIT_EXCEEDED" ∧
  App.globalStore a' = g.2 ∧
  App.createLinkStore a' = App.createLinkStore a ∧
  App.service a' = App.service a.
Proof.
  intros a clk req key g.
  assert (RateLimitResult.isLimited g.1 = true) as H1
    by (vm_compute; reflexivity).
  split; [exact H1|].
  exact (app_global_denial_ends_the_chain Sample.urlParses Sample.randomBytes
           Sample.base64url Sample.encodeUrl clk req a H1).
Defined.

Lemma app_post_reports_route_limiter_witness :
  let a := App.new in
  let clk := {| App.globalNow := 1000; App.globalLater := 1000;
                App.routeNow := 1000; App.routeLater := 1000;
                App.created := 1000 |} in
  let ip := Some "10.0.0.1" in
  let baseUrl := "http://localhost:3000" in
  let url := "https://example.com" in
  let key := default "unknown" ip in
  let g := RateLimiterStore.check (App.globalStore a) (App.globalNow clk) key in
  let c := RateLimiterStore.check (App.createLinkStore a) (App.routeNow clk) key in
  RateLimitResult.isLimited g.1 = false ∧
  let '(res, a') :=
    App.handle Sample.urlParses Sample.randomBytes Sample.base64url
      Sample.encodeUrl clk
      (App.PostLink ip baseUrl url) a in
  App.globalStore a' = g.2 ∧
  App.createLinkStore a' = c.2 ∧
  Http.header res "X-RateLimit-Limit" = Some (Http.HNum 10) ∧
  Http.header res "X-RateLimit-Remaining"
  = Some (Http.HNum (RateLimitResult.remaining c.1)) ∧
  if RateLimitResult.isLimited c.1
  then Http.statusCode res = 429 ∧
       Http.body res
       = Http.ErrorEnvelope
           "Too many link creation requests, please try again later"
           "CREATION_RATE_LIMIT_EXCEEDED" ∧
       App.service a' = App.service a
  else App.service a'
       = (Sample.shortenUrl (App.created clk) url (App.service a)).2.
Proof.
  intros a clk ip baseUrl url key g c.
  assert (RateLimitResult.isLimited g.1 = false) as H1
    by (vm_compute; reflexivity).
  split; [exact H1|].
  exact (app_post_reports_route_limiter Sample.urlParses Sample.randomBytes
           Sample.base64url Sample.encodeUrl clk ip baseUrl url a H1).
Defined.

Lemma lru_get_keeps_contents_witness :
  let c := LruCache.run (LruCache.new 2)
             [LruCache.OSet "A" 1%nat; LruCache.OSet "B" 5%nat] in
  LruCache.has c "C" = false ∧
  LruCache.get c "C" = (None, c) ∧
  LruCache.entries (LruCache.get c "A").2 ≡ₚ LruCache.entries c.
Proof.
  intros c.
  assert (LruCache.has c "C" = false) as H1 by (vm_compute; reflexivity).
  split; [exact H1|]. split.
  - exact (proj2 (proj2 (lru_get_keeps_contents 2
             [LruCache.OSet "A" 1%nat; LruCache.OSet "B" 5%nat] "C")) H1).
  - exact (proj1 (lru_get_keeps_contents 2
             [LruCache.OSet "A" 1%nat; LruCache.OSet "B" 5%nat] "A")).
Defined.

Lemma sweep_removes_only_expired_witness :
  let s := RateLimiterStore.Build
             {[ "old" := RateLimitEntry.Build 3 100 ]} 60000 5 true in
  100 ≤ 150 ∧
  RateLimiterStore.entries (RateLimiterStore.sweep s 100) !! "old" = None ∧
  (RateLimiterStore.check (RateLimiterStore.sweep s 100) 150 "old").1
  = (RateLimiterStore.check s 150 "old").1.
Proof.
  intros s. assert (100 ≤ 150) as H1 by lia. split; [exact H1|]. split.
  - vm_compute. reflexivity.
  - exact (proj2 (sweep_removes_only_expired s 100) "old" 150 H1).
Defined.

Lemma repo_findByShortCode_sound_and_complete_witness :
  let link := Link.Build "id00001" "https://example.com" "code001" 10 in
  let r := (InMemoryLinkRepository.save InMemoryLinkRepository.new link).2 in
  InMemoryLinkRepository.findByShortCode r "code001" = Some link ∧
  link ∈ InMemoryLinkRepository.findAll r ∧ Link.shortCode link = "code001".
Proof.
  intros link r.
  assert (InMemoryLinkRepository.findByShortCode r "code001" = Some link)
    as H1 by (vm_compute; reflexivity).
  split; [exact H1|].
  exact (proj1 (repo_findByShortCode_sound_and_complete r "code001") link H1).
Defined.
